(** * Boxes + Ball: collision detection and resolution

    A shallow embedding of [main.py]: the AABB resolver
    ([resolve_aabb_overlap]), the circle/rectangle resolver
    ([circle_rect_overlap]), the velocity reflector
    ([reflect_velocity_over_normal]) and one iteration of the main loop
    ([tick]), followed by the properties of the collision subsystem.

    Number model.  [pygame.Rect] stores integers: they are [Z].  Python
    floats (box positions [x1 .. y2], the ball's [Vector2]s, [dt]) are
    idealised as real numbers [R]; [math.sqrt] is [sqrt], [math.hypot x y]
    is [sqrt (x*x + y*y)], [int(f)] is truncation toward zero.  Rounding is
    therefore outside the model; the concrete scenarios below use values on
    which binary64 arithmetic is exact or whose rounding cannot change the
    outcome of a comparison. *)

From Stdlib Require Import ZArith Reals Lra Lia List Bool.
Import ListNotations.

Open Scope R_scope.

(** ** Python numerics *)

Definition Rltb (a b : R) : bool := if Rlt_dec a b then true else false.
Definition Rgtb (a b : R) : bool := Rltb b a.
Definition Rgeb (a b : R) : bool := if Rge_dec a b then true else false.
Definition Reqb (a b : R) : bool := if Req_dec_T a b then true else false.

(** Truth value of a float: [bool(f)] is [f != 0]. *)
Definition truthy (f : R) : bool := negb (Reqb f 0).

(** [int(f)]: truncation toward zero. *)
Definition py_int (f : R) : Z :=
  if Rle_dec 0 f then Int_part f else (- Int_part (- f))%Z.

(** [math.hypot]. *)
Definition hypot (a b : R) : R := sqrt (a * a + b * b).

(** [min(xs, key=key)] on a non-empty list headed by [x0]: the first element
    whose key is minimal. *)
Fixpoint py_min_by {A : Type} (key : A -> R) (x0 : A) (xs : list A) : A :=
  match xs with
  | [] => x0
  | x :: xs' => py_min_by key (if Rltb (key x) (key x0) then x else x0) xs'
  end.

(** ** Configuration constants *)

Definition WIDTH : Z := 960.
Definition HEIGHT : Z := 720.
Definition BOX_SIZE : Z := 50.
Definition SPEED : R := 500.
Definition BALL_RADIUS : Z := 22.
Definition BALL_START_VEL : R * R := (250, -180).
Definition BALL_BOUNCE_DAMP : R := 95 / 100.
Definition BALL_FRICTION : R := 995 / 1000.

(** ** pygame.Rect and pygame.Vector2 *)

Module Rect.

Record t : Set := mk { x : Z; y : Z; w : Z; h : Z }.

Definition left (r : t) : Z := x r.
Definition top (r : t) : Z := y r.
Definition right (r : t) : Z := (x r + w r)%Z.
Definition bottom (r : t) : Z := (y r + h r)%Z.

(** [Rect.colliderect] as pygame implements it: rectangles of zero width
    or height collide with nothing, and the comparison is strict, so
    rectangles that only share an edge do not collide. *)
Definition colliderect (a b : t) : bool :=
  if ((w a =? 0) || (h a =? 0) || (w b =? 0) || (h b =? 0))%Z then false
  else
    ((Z.min (x a) (x a + w a) <? Z.max (x b) (x b + w b))
     && (Z.min (y a) (y a + h a) <? Z.max (y b) (y b + h b))
     && (Z.max (x a) (x a + w a) >? Z.min (x b) (x b + w b))
     && (Z.max (y a) (y a + h a) >? Z.min (y b) (y b + h b)))%Z.

(** Attribute assignments: [r.topleft = (a, b)], [r.right = v],
    [r.bottom = v]; the size is kept. *)
Definition set_topleft (r : t) (a b : Z) : t := mk a b (w r) (h r).
Definition set_right (r : t) (v : Z) : t := mk (v - w r) (y r) (w r) (h r).
Definition set_bottom (r : t) (v : Z) : t := mk (x r) (v - h r) (w r) (h r).

(** [r.x += a; r.y += b]. *)
Definition move (r : t) (a b : Z) : t := mk (x r + a) (y r + b) (w r) (h r).

(** Width and height are positive, as for every rectangle [main] builds. *)
Definition proper (r : t) : Prop := (0 < w r)%Z /\ (0 < h r)%Z.

End Rect.

Module Vector2.

Record t : Type := mk { x : R; y : R }.

Definition length (v : t) : R := hypot (x v) (y v).

End Vector2.

(** ** The AABB resolver *)

(** The signed overlap the resolver picks on one axis: [lo] is the depth
    when pushing toward the low side (left, up), [hi] toward the high side. *)
Definition min_overlap (lo hi : Z) : Z := if (lo <? hi)%Z then lo else (- hi)%Z.

Definition min_x_overlap (mover static : Rect.t) : Z :=
  min_overlap (Rect.right mover - Rect.left static)
              (Rect.right static - Rect.left mover).

Definition min_y_overlap (mover static : Rect.t) : Z :=
  min_overlap (Rect.bottom mover - Rect.top static)
              (Rect.bottom static - Rect.top mover).

(** [resolve_aabb_overlap mover static vx vy] returns the mover after the
    call (the source mutates it in place) and the correction [(dx, dy)].
    [dx], [dy] are already integers, so the source's [int(dx)] is the
    identity. *)
Definition resolve_aabb_overlap (mover static : Rect.t) (vx vy : R)
  : Rect.t * (Z * Z) :=
  if negb (Rect.colliderect mover static) then (mover, (0, 0)%Z)
  else
    let mx := min_x_overlap mover static in
    let my := min_y_overlap mover static in
    let '(dx, dy) :=
      if (Z.abs mx <? Z.abs my)%Z then ((- mx)%Z, 0%Z)
      else if (Z.abs my <? Z.abs mx)%Z then (0%Z, (- my)%Z)
      else if Rgeb (Rabs vx) (Rabs vy) then ((- mx)%Z, 0%Z)
      else (0%Z, (- my)%Z) in
    (Rect.move mover dx dy, (dx, dy)).

(** ** The circle/rectangle resolver *)

Definition push_key (v : R * R) : R := Rabs (fst v) + Rabs (snd v).

(** The four candidate pushes of the zero-distance branch, in source order:
    left, right, up, down. *)
Definition push_options (cx cy r : R) (rect : Rect.t) : list (R * R) :=
  let left_dist := Rabs (cx - IZR (Rect.left rect)) in
  let right_dist := Rabs (IZR (Rect.right rect) - cx) in
  let top_dist := Rabs (cy - IZR (Rect.top rect)) in
  let bottom_dist := Rabs (IZR (Rect.bottom rect) - cy) in
  [ (- (r - left_dist), 0);
    (r - right_dist, 0);
    (0, - (r - top_dist));
    (0, r - bottom_dist) ].

Definition closest_x (cx : R) (rect : Rect.t) : R :=
  Rmax (IZR (Rect.left rect)) (Rmin cx (IZR (Rect.right rect))).

Definition closest_y (cy : R) (rect : Rect.t) : R :=
  Rmax (IZR (Rect.top rect)) (Rmin cy (IZR (Rect.bottom rect))).

Definition circle_rect_overlap (cx cy r : R) (rect : Rect.t) : R * R :=
  let dx := cx - closest_x cx rect in
  let dy := cy - closest_y cy rect in
  let dist_sq := dx * dx + dy * dy in
  if Rgtb dist_sq (r * r) then (0, 0)
  else
    let dist := if negb (Reqb dist_sq 0) then sqrt dist_sq else 0 in
    if Reqb dist 0 then
      match push_options cx cy r rect with
      | o :: os => py_min_by push_key o os
      | [] => (0, 0)
      end
    else
      let nx := dx / dist in
      let ny := dy / dist in
      let pen := r - dist in
      (nx * pen, ny * pen).

(** ** The velocity reflector *)

Definition reflect_velocity_over_normal (vx vy nx ny damp : R) : R * R :=
  let dot := vx * nx + vy * ny in
  let rx := vx - 2 * dot * nx in
  let ry := vy - 2 * dot * ny in
  (rx * damp, ry * damp).

(** ** One iteration of the main loop *)

(** [pygame.key.get_pressed()], restricted to the eight keys [main] reads. *)
Record Keys : Set := mkKeys {
  K_RIGHT : bool; K_LEFT : bool; K_DOWN : bool; K_UP : bool;
  K_d : bool; K_a : bool; K_s : bool; K_w : bool
}.

(** The variables of [main] that live across iterations.  [ball_r] is the
    constant [BALL_RADIUS]. *)
Record State : Type := mkState {
  x1 : R; y1 : R; x2 : R; y2 : R;
  box1 : Rect.t; box2 : Rect.t;
  ball_pos : Vector2.t; ball_vel : Vector2.t
}.

Definition ball_r : R := IZR BALL_RADIUS.

(** [keys[a] - keys[b]]. *)
Definition key_axis (a b : bool) : Z := (Z.b2z a - Z.b2z b)%Z.

Definition inv : R := 1 / (141421356237 / 100000000000).

(** Direction of a box: the two key differences, scaled by [inv] when both
    are non-zero. *)
Definition direction (dx dy : Z) : R * R :=
  if negb (dx =? 0)%Z && negb (dy =? 0)%Z
  then (IZR dx * inv, IZR dy * inv)
  else (IZR dx, IZR dy).

(** [p += d * SPEED * dt; p = max(0, min(p, limit))]. *)
Definition move_clamp (p d dt : R) (limit : Z) : R :=
  Rmax 0 (Rmin (p + d * SPEED * dt) (IZR limit)).

(** The body of [if box1.colliderect(box2):], without the float sync. *)
Definition resolve_boxes (b1 b2 : Rect.t) (dx1 dy1 dx2 dy2 : R)
  : Rect.t * Rect.t :=
  let r1 := fst (resolve_aabb_overlap b1 b2 dx1 dy1) in
  let r2 := fst (resolve_aabb_overlap b2 b1 dx2 dy2) in
  let corr1 := (Z.abs (Rect.x r1 - Rect.x b1) + Z.abs (Rect.y r1 - Rect.y b1))%Z in
  let corr2 := (Z.abs (Rect.x r2 - Rect.x b2) + Z.abs (Rect.y r2 - Rect.y b2))%Z in
  if (corr1 + corr2 =? 0)%Z then
    if Rgeb (Rabs dx1 + Rabs dx2) (Rabs dy1 + Rabs dy2) then
      if Rgtb dx1 dx2 then (Rect.set_right b1 (Rect.left b2), b2)
      else (b1, Rect.set_right b2 (Rect.left b1))
    else
      if Rgtb dy1 dy2 then (Rect.set_bottom b1 (Rect.top b2), b2)
      else (b1, Rect.set_bottom b2 (Rect.top b1))
  else
    (Rect.set_topleft b1 (Rect.x r1) (Rect.y r1),
     Rect.set_topleft b2 (Rect.x r2) (Rect.y r2)).

(** Total correction magnitude of one resolver call, as [main] measures it
    on the copy it resolved. *)
Definition correction (b other : Rect.t) (vx vy : R) : Z :=
  let r := fst (resolve_aabb_overlap b other vx vy) in
  (Z.abs (Rect.x r - Rect.x b) + Z.abs (Rect.y r - Rect.y b))%Z.

(** [ball_pos += ball_vel * dt; ball_vel *= BALL_FRICTION]. *)
Definition ball_physics (pos vel : Vector2.t) (dt : R) : Vector2.t * Vector2.t :=
  (Vector2.mk (Vector2.x pos + Vector2.x vel * dt)
              (Vector2.y pos + Vector2.y vel * dt),
   Vector2.mk (Vector2.x vel * BALL_FRICTION) (Vector2.y vel * BALL_FRICTION)).

(** Ball vs window bounds: four independent checks, left, right, top, bottom. *)
Definition wall_left (pv : Vector2.t * Vector2.t) : Vector2.t * Vector2.t :=
  let '(pos, vel) := pv in
  if Rltb (Vector2.x pos - ball_r) 0
  then (Vector2.mk ball_r (Vector2.y pos),
        Vector2.mk (- Vector2.x vel * BALL_BOUNCE_DAMP) (Vector2.y vel))
  else pv.

Definition wall_right (pv : Vector2.t * Vector2.t) : Vector2.t * Vector2.t :=
  let '(pos, vel) := pv in
  if Rgtb (Vector2.x pos + ball_r) (IZR WIDTH)
  then (Vector2.mk (IZR WIDTH - ball_r) (Vector2.y pos),
        Vector2.mk (- Vector2.x vel * BALL_BOUNCE_DAMP) (Vector2.y vel))
  else pv.

Definition wall_top (pv : Vector2.t * Vector2.t) : Vector2.t * Vector2.t :=
  let '(pos, vel) := pv in
  if Rltb (Vector2.y pos - ball_r) 0
  then (Vector2.mk (Vector2.x pos) ball_r,
        Vector2.mk (Vector2.x vel) (- Vector2.y vel * BALL_BOUNCE_DAMP))
  else pv.

Definition wall_bottom (pv : Vector2.t * Vector2.t) : Vector2.t * Vector2.t :=
  let '(pos, vel) := pv in
  if Rgtb (Vector2.y pos + ball_r) (IZR HEIGHT)
  then (Vector2.mk (Vector2.x pos) (IZR HEIGHT - ball_r),
        Vector2.mk (Vector2.x vel) (- Vector2.y vel * BALL_BOUNCE_DAMP))
  else pv.

Definition ball_walls (pv : Vector2.t * Vector2.t) : Vector2.t * Vector2.t :=
  wall_bottom (wall_top (wall_right (wall_left pv))).

(** The contact normal of a push-out vector, with the default normal for a
    zero-length one. *)
Definition contact_normal (px py : R) : R * R :=
  let nlen := hypot px py in
  if Reqb nlen 0 then (0, -1) else (px / nlen, py / nlen).

(** The body of the loop over the boxes: [rect] is the box, [(mvx, mvy)] its
    velocity this tick. *)
Definition ball_vs_box (pv : Vector2.t * Vector2.t) (b : Rect.t * R * R)
  : Vector2.t * Vector2.t :=
  let '(pos, vel) := pv in
  let '(rect, mvx, mvy) := b in
  let '(px, py) := circle_rect_overlap (Vector2.x pos) (Vector2.y pos) ball_r rect in
  if truthy px || truthy py then
    let pos' := Vector2.mk (Vector2.x pos + px) (Vector2.y pos + py) in
    let '(nx, ny) := contact_normal px py in
    let rel_vx := Vector2.x vel - mvx in
    let rel_vy := Vector2.y vel - mvy in
    let '(rvx, rvy) :=
      reflect_velocity_over_normal rel_vx rel_vy nx ny BALL_BOUNCE_DAMP in
    (pos', Vector2.mk (rvx + mvx) (rvy + mvy))
  else pv.

Definition ball_vs_boxes (pv : Vector2.t * Vector2.t)
  (boxes : list (Rect.t * R * R)) : Vector2.t * Vector2.t :=
  fold_left ball_vs_box boxes pv.

(** State after the box part of an iteration (input, clamp, sync, box-box
    resolution), together with the two directions. *)
Definition move_boxes (keys : Keys) (dt : R) (s : State)
  : State * (R * R) * (R * R) :=
  let '(dx1, dy1) := direction (key_axis (K_RIGHT keys) (K_LEFT keys))
                               (key_axis (K_DOWN keys) (K_UP keys)) in
  let x1' := move_clamp (x1 s) dx1 dt (WIDTH - BOX_SIZE) in
  let y1' := move_clamp (y1 s) dy1 dt (HEIGHT - BOX_SIZE) in
  let b1 := Rect.set_topleft (box1 s) (py_int x1') (py_int y1') in
  let '(dx2, dy2) := direction (key_axis (K_d keys) (K_a keys))
                               (key_axis (K_s keys) (K_w keys)) in
  let x2' := move_clamp (x2 s) dx2 dt (WIDTH - BOX_SIZE) in
  let y2' := move_clamp (y2 s) dy2 dt (HEIGHT - BOX_SIZE) in
  let b2 := Rect.set_topleft (box2 s) (py_int x2') (py_int y2') in
  if Rect.colliderect b1 b2 then
    let '(b1', b2') := resolve_boxes b1 b2 dx1 dy1 dx2 dy2 in
    (mkState (IZR (Rect.x b1')) (IZR (Rect.y b1'))
             (IZR (Rect.x b2')) (IZR (Rect.y b2'))
             b1' b2' (ball_pos s) (ball_vel s),
     (dx1, dy1), (dx2, dy2))
  else
    (mkState x1' y1' x2' y2' b1 b2 (ball_pos s) (ball_vel s),
     (dx1, dy1), (dx2, dy2)).

Definition tick (keys : Keys) (dt : R) (s : State) : State :=
  let '(s1, (dx1, dy1), (dx2, dy2)) := move_boxes keys dt s in
  let pv := ball_walls (ball_physics (ball_pos s1) (ball_vel s1) dt) in
  let '(pos, vel) :=
    ball_vs_boxes pv [ (box1 s1, dx1 * SPEED, dy1 * SPEED);
                       (box2 s1, dx2 * SPEED, dy2 * SPEED) ] in
  mkState (x1 s1) (y1 s1) (x2 s1) (y2 s1) (box1 s1) (box2 s1) pos vel.

(** The state [main] builds before the loop. *)
Definition initial_state : State :=
  let x1 := IZR (WIDTH - BOX_SIZE) / (12 / 10) in
  let y1 := IZR (HEIGHT - BOX_SIZE) / 2 in
  let x2 := IZR (WIDTH - BOX_SIZE) / 4 in
  let y2 := IZR (HEIGHT - BOX_SIZE) / 2 in
  mkState x1 y1 x2 y2
          (Rect.mk (py_int x1) (py_int y1) BOX_SIZE BOX_SIZE)
          (Rect.mk (py_int x2) (py_int y2) BOX_SIZE BOX_SIZE)
          (Vector2.mk (IZR WIDTH * (5 / 10)) (IZR HEIGHT * (5 / 10)))
          (Vector2.mk (fst BALL_START_VEL) (snd BALL_START_VEL)).

Definition no_keys : Keys := mkKeys false false false false false false false false.

(** ** Vocabulary of the statements *)

(** Two proper rectangles that share an edge line but no area. *)
Definition edge_touching (a b : Rect.t) : Prop :=
  Rect.proper a /\ Rect.proper b /\
  (Rect.right a = Rect.left b \/ Rect.right b = Rect.left a \/
   Rect.bottom a = Rect.top b \/ Rect.bottom b = Rect.top a).

(** The circle's centre lies on or inside the rectangle. *)
Definition center_in_rect (cx cy : R) (rect : Rect.t) : Prop :=
  IZR (Rect.left rect) <= cx <= IZR (Rect.right rect) /\
  IZR (Rect.top rect) <= cy <= IZR (Rect.bottom rect).

(** The circle's centre lies strictly outside the rectangle. *)
Definition center_outside (p : Vector2.t) (rect : Rect.t) : Prop :=
  Vector2.x p < IZR (Rect.left rect) \/ IZR (Rect.right rect) < Vector2.x p \/
  Vector2.y p < IZR (Rect.top rect) \/ IZR (Rect.bottom rect) < Vector2.y p.

(** The push-out [main] would compute for a ball at [p] against [rect]. *)
Definition ball_push (p : Vector2.t) (rect : Rect.t) : R * R :=
  circle_rect_overlap (Vector2.x p) (Vector2.y p) ball_r rect.

(** The ball of an iteration when the loop over the boxes starts, and after
    the loop body has run for box 1. *)
Definition ball_before_boxes (keys : Keys) (dt : R) (s : State)
  : Vector2.t * Vector2.t :=
  let s1 := fst (fst (move_boxes keys dt s)) in
  ball_walls (ball_physics (ball_pos s1) (ball_vel s1) dt).

Definition ball_after_box1 (keys : Keys) (dt : R) (s : State)
  : Vector2.t * Vector2.t :=
  let '(s1, (dx1, dy1), _) := move_boxes keys dt s in
  ball_vs_box (ball_before_boxes keys dt s) (box1 s1, dx1 * SPEED, dy1 * SPEED).

(** Speed of the ball relative to an obstacle moving at [(mvx, mvy)]. *)
Definition rel_speed (v : Vector2.t) (m : R * R) : R :=
  hypot (Vector2.x v - fst m) (Vector2.y v - snd m).

(** The bounces of one iteration: a wall check that fires (the wall is at
    rest), or a ball-box response that runs (the box moves at its velocity
    of this tick).  [bounce v m c v'] relates the ball's velocity before, the
    obstacle's velocity, the part [c] of the incoming velocity that the
    bounce damps, and the ball's velocity after.  A wall damps the velocity
    component that points across it (x for the left and right walls, y for
    the top and bottom ones); a box damps the whole velocity relative to the
    box, and [c] is then the relative speed. *)
Inductive bounce : Vector2.t -> R * R -> R -> Vector2.t -> Prop :=
| bounce_left : forall pos vel,
    Rltb (Vector2.x pos - ball_r) 0 = true ->
    bounce vel (0, 0) (Vector2.x vel) (snd (wall_left (pos, vel)))
| bounce_right : forall pos vel,
    Rgtb (Vector2.x pos + ball_r) (IZR WIDTH) = true ->
    bounce vel (0, 0) (Vector2.x vel) (snd (wall_right (pos, vel)))
| bounce_top : forall pos vel,
    Rltb (Vector2.y pos - ball_r) 0 = true ->
    bounce vel (0, 0) (Vector2.y vel) (snd (wall_top (pos, vel)))
| bounce_bottom : forall pos vel,
    Rgtb (Vector2.y pos + ball_r) (IZR HEIGHT) = true ->
    bounce vel (0, 0) (Vector2.y vel) (snd (wall_bottom (pos, vel)))
| bounce_box : forall pos vel rect mvx mvy,
    truthy (fst (ball_push pos rect)) || truthy (snd (ball_push pos rect)) = true ->
    bounce vel (mvx, mvy) (rel_speed vel (mvx, mvy))
           (snd (ball_vs_box (pos, vel) (rect, mvx, mvy))).

(** The centre lies strictly inside the rectangle. *)
Definition center_strictly_inside (cx cy : R) (rect : Rect.t) : Prop :=
  IZR (Rect.left rect) < cx < IZR (Rect.right rect) /\
  IZR (Rect.top rect) < cy < IZR (Rect.bottom rect).

(** The zero-distance case as the spec words it (the push "whose required
    correction magnitude is smallest") and as the comment in the source
    announces it ("shortest push to get out"): the four axis-aligned pushes
    that take the circle just out of the rectangle, in the order left, right,
    up, down.  To clear the left edge the centre has to end at [left - r],
    and likewise for the other three. *)
Definition separating_pushes (cx cy r : R) (rect : Rect.t) : list (R * R) :=
  [ (IZR (Rect.left rect) - r - cx, 0);
    (IZR (Rect.right rect) + r - cx, 0);
    (0, IZR (Rect.top rect) - r - cy);
    (0, IZR (Rect.bottom rect) + r - cy) ].

(** Plane vectors, for the reflection formula. *)
Definition vdot (a b : R * R) : R := fst a * fst b + snd a * snd b.
Definition vscale (k : R) (a : R * R) : R * R := (k * fst a, k * snd a).
Definition vsub (a b : R * R) : R * R := (fst a - fst b, snd a - snd b).

(** ** Scenarios *)

(** Two boxes on one row, overlapping by 8 pixels. *)
Definition overlap_b1 : Rect.t := Rect.mk 100 335 BOX_SIZE BOX_SIZE.
Definition overlap_b2 : Rect.t := Rect.mk 142 335 BOX_SIZE BOX_SIZE.

(** A ball moving right at 125 in the 46-pixel gap between the two boxes,
    touching box 1 and overlapping neither; box 2 is then driven left
    (key [a]) for 16 ms. *)
Definition squeeze_state : State :=
  mkState 98 100 194 100
          (Rect.mk 98 100 BOX_SIZE BOX_SIZE) (Rect.mk 194 100 BOX_SIZE BOX_SIZE)
          (Vector2.mk 170 125) (Vector2.mk 125 0).

(** The ball of the squeeze scenario when the loop over the boxes starts. *)
Definition squeeze_ball : Vector2.t * Vector2.t :=
  (Vector2.mk 172 125, Vector2.mk (124375 / 1000) 0).

(** The two overlapping boxes as a state, the ball out of their way. *)
Definition overlap_state : State :=
  mkState 100 335 142 335 overlap_b1 overlap_b2
          (Vector2.mk 480 100) (Vector2.mk 0 0).

Definition squeeze_keys : Keys :=
  mkKeys false false false false false true false false.

Definition squeeze_dt : R := 16 / 1000.

(** The boundary clamp scenario: the boxes where [main] puts them, the ball at
    [(5, 300)] moving left at 100. *)
Definition clamp_state : State :=
  mkState (x1 initial_state) (y1 initial_state)
          (x2 initial_state) (y2 initial_state)
          (box1 initial_state) (box2 initial_state)
          (Vector2.mk 5 300) (Vector2.mk (-100) 0).

(** ** Vocabulary of the further properties *)

(** The smallest of the four overlap depths of [mover] against [static]. *)
Definition min_depth (mover static : Rect.t) : Z :=
  Z.min (Z.min (Rect.right mover - Rect.left static)
               (Rect.right static - Rect.left mover))
        (Z.min (Rect.bottom mover - Rect.top static)
               (Rect.bottom static - Rect.top mover)).

(** The centres of the two rectangles differ on both axes (twice the centre
    abscissa is left + right). *)
Definition centres_apart (a b : Rect.t) : Prop :=
  (Rect.left a + Rect.right a <> Rect.left b + Rect.right b)%Z /\
  (Rect.top a + Rect.bottom a <> Rect.top b + Rect.bottom b)%Z.

(** Offset of the circle's centre from the closest point of the rectangle, and
    its length, the distance of the centre to the rectangle. *)
Definition center_offset (cx cy : R) (rect : Rect.t) : R * R :=
  (cx - closest_x cx rect, cy - closest_y cy rect).

Definition center_distance (cx cy : R) (rect : Rect.t) : R :=
  hypot (fst (center_offset cx cy rect)) (snd (center_offset cx cy rect)).

(** A box rectangle lies inside the window. *)
Definition box_in_arena (b : Rect.t) : Prop :=
  (0 <= Rect.x b <= WIDTH - BOX_SIZE)%Z /\ (0 <= Rect.y b <= HEIGHT - BOX_SIZE)%Z.

(** The ball lies inside the window, touching a wall at most. *)
Definition ball_in_arena (p : Vector2.t) : Prop :=
  ball_r <= Vector2.x p <= IZR WIDTH - ball_r /\
  ball_r <= Vector2.y p <= IZR HEIGHT - ball_r.

(** The rectangles of the two boxes sit at the truncated float positions. *)
Definition boxes_synced (s : State) : Prop :=
  Rect.x (box1 s) = py_int (x1 s) /\ Rect.y (box1 s) = py_int (y1 s) /\
  Rect.x (box2 s) = py_int (x2 s) /\ Rect.y (box2 s) = py_int (y2 s).

(** Both boxes are [BOX_SIZE] squares. *)
Definition box_sized (b : Rect.t) : Prop :=
  Rect.w b = BOX_SIZE /\ Rect.h b = BOX_SIZE.

Definition boxes_sized (s : State) : Prop :=
  box_sized (box1 s) /\ box_sized (box2 s).

(** The float position of each box lies in the range the clamp allows. *)
Definition floats_in_arena (s : State) : Prop :=
  (0 <= x1 s <= IZR (WIDTH - BOX_SIZE) /\ 0 <= y1 s <= IZR (HEIGHT - BOX_SIZE)) /\
  (0 <= x2 s <= IZR (WIDTH - BOX_SIZE) /\ 0 <= y2 s <= IZR (HEIGHT - BOX_SIZE)).

(** The two box rectangles after input, clamp and sync, before the box-box
    resolution. *)
Definition input_boxes (keys : Keys) (dt : R) (s : State) : Rect.t * Rect.t :=
  let '(dx1, dy1) := direction (key_axis (K_RIGHT keys) (K_LEFT keys))
                               (key_axis (K_DOWN keys) (K_UP keys)) in
  let '(dx2, dy2) := direction (key_axis (K_d keys) (K_a keys))
                               (key_axis (K_s keys) (K_w keys)) in
  (Rect.set_topleft (box1 s)
     (py_int (move_clamp (x1 s) dx1 dt (WIDTH - BOX_SIZE)))
     (py_int (move_clamp (y1 s) dy1 dt (HEIGHT - BOX_SIZE))),
   Rect.set_topleft (box2 s)
     (py_int (move_clamp (x2 s) dx2 dt (WIDTH - BOX_SIZE)))
     (py_int (move_clamp (y2 s) dy2 dt (HEIGHT - BOX_SIZE)))).

(** One pass of the [while running] loop per frame: whether the frame's
    events contain [QUIT], the pressed keys, and the elapsed time.  A frame
    with [QUIT] still runs its iteration; the loop stops after it. *)
Record Frame : Type := mkFrame { quit : bool; frame_keys : Keys; frame_dt : R }.

Fixpoint main_loop (frames : list Frame) (s : State) : State :=
  match frames with
  | [] => s
  | f :: fs =>
      let s' := tick (frame_keys f) (frame_dt f) s in
      if quit f then s' else main_loop fs s'
  end.

(** * Properties *)

(** ** Comparisons *)

Lemma Rltb_true (a b : R) : Rltb a b = true <-> a < b.
Proof. unfold Rltb; destruct (Rlt_dec a b); split; intros; (congruence || lra). Qed.

Lemma Rltb_false (a b : R) : Rltb a b = false <-> b <= a.
Proof. unfold Rltb; destruct (Rlt_dec a b); split; intros; (congruence || lra). Qed.

Lemma Rgeb_true (a b : R) : Rgeb a b = true <-> b <= a.
Proof. unfold Rgeb; destruct (Rge_dec a b); split; intros; (congruence || lra). Qed.

Lemma Rgeb_false (a b : R) : Rgeb a b = false <-> a < b.
Proof. unfold Rgeb; destruct (Rge_dec a b); split; intros; (congruence || lra). Qed.

Lemma Reqb_true (a b : R) : Reqb a b = true <-> a = b.
Proof. unfold Reqb; destruct (Req_dec_T a b); split; intros; (congruence || lra). Qed.

Lemma Reqb_false (a b : R) : Reqb a b = false <-> a <> b.
Proof. unfold Reqb; destruct (Req_dec_T a b); split; intros; congruence. Qed.

Lemma truthy_true (a : R) : truthy a = true <-> a <> 0.
Proof. unfold truthy; rewrite negb_true_iff; apply Reqb_false. Qed.

Lemma truthy_false (a : R) : truthy a = false <-> a = 0.
Proof. unfold truthy; rewrite negb_false_iff; apply Reqb_true. Qed.

(** ** The AABB resolver *)

(** What [colliderect] means for proper rectangles. *)
Lemma colliderect_proper (a b : Rect.t) :
  Rect.proper a -> Rect.proper b ->
  (Rect.colliderect a b = true <->
   (Rect.left a < Rect.right b /\ Rect.top a < Rect.bottom b /\
    Rect.left b < Rect.right a /\ Rect.top b < Rect.bottom a)%Z).
Proof.
  intros [Hwa Hha] [Hwb Hhb].
  unfold Rect.colliderect, Rect.left, Rect.right, Rect.top, Rect.bottom.
  destruct (Z.eqb_spec (Rect.w a) 0); [lia|].
  destruct (Z.eqb_spec (Rect.h a) 0); [lia|].
  destruct (Z.eqb_spec (Rect.w b) 0); [lia|].
  destruct (Z.eqb_spec (Rect.h b) 0); [lia|].
  cbn [orb].
  rewrite !andb_true_iff, !Z.ltb_lt, !Z.gtb_lt. lia.
Qed.

Lemma edge_touching_separate (a b : Rect.t) :
  edge_touching a b -> Rect.colliderect a b = false.
Proof.
  intros (Ha & Hb & Hedge).
  destruct (Rect.colliderect a b) eqn:E; [|reflexivity].
  apply (colliderect_proper a b Ha Hb) in E.
  destruct Ha, Hb. unfold Rect.left, Rect.right, Rect.top, Rect.bottom in *. lia.
Qed.

(** The overlap picked on an axis is never zero when both depths are
    positive, and its magnitude is the smaller depth. *)
Lemma min_overlap_abs (lo hi : Z) :
  (0 < lo)%Z -> (0 < hi)%Z -> Z.abs (min_overlap lo hi) = Z.min lo hi.
Proof. intros; unfold min_overlap; destruct (Z.ltb_spec lo hi); lia. Qed.

Lemma resolve_separate (mover static : Rect.t) (vx vy : R) :
  Rect.colliderect mover static = false ->
  resolve_aabb_overlap mover static vx vy = (mover, (0, 0)%Z).
Proof. intros E; unfold resolve_aabb_overlap; rewrite E; reflexivity. Qed.

(** The correction of a resolver call on proper, colliding rectangles is the
    smaller of the two axis depths, hence positive. *)
Lemma correction_positive (b other : Rect.t) (vx vy : R) :
  Rect.proper b -> Rect.proper other -> Rect.colliderect b other = true ->
  (0 < correction b other vx vy)%Z.
Proof.
  intros Hb Ho E.
  pose proof (proj1 (colliderect_proper b other Hb Ho) E) as (H1 & H2 & H3 & H4).
  unfold correction, resolve_aabb_overlap. rewrite E. cbn [negb].
  assert (Hx : (0 < Z.abs (min_x_overlap b other))%Z).
  { unfold min_x_overlap. rewrite min_overlap_abs; lia. }
  assert (Hy : (0 < Z.abs (min_y_overlap b other))%Z).
  { unfold min_y_overlap. rewrite min_overlap_abs; lia. }
  destruct (Z.abs (min_x_overlap b other) <? Z.abs (min_y_overlap b other))%Z;
    [cbn; lia|].
  destruct (Z.abs (min_y_overlap b other) <? Z.abs (min_x_overlap b other))%Z;
    [cbn; lia|].
  destruct (Rgeb (Rabs vx) (Rabs vy)); cbn; lia.
Qed.

Lemma resolve_boxes_unfold (b1 b2 : Rect.t) (dx1 dy1 dx2 dy2 : R) :
  (correction b1 b2 dx1 dy1 + correction b2 b1 dx2 dy2 =? 0)%Z = false ->
  resolve_boxes b1 b2 dx1 dy1 dx2 dy2 =
  (Rect.set_topleft b1 (Rect.x (fst (resolve_aabb_overlap b1 b2 dx1 dy1)))
                       (Rect.y (fst (resolve_aabb_overlap b1 b2 dx1 dy1))),
   Rect.set_topleft b2 (Rect.x (fst (resolve_aabb_overlap b2 b1 dx2 dy2)))
                       (Rect.y (fst (resolve_aabb_overlap b2 b1 dx2 dy2)))).
Proof.
  intros E. unfold resolve_boxes. unfold correction in E. rewrite E. reflexivity.
Qed.

(** C8.  On a pair of rectangles that do not overlap, edge-touching pairs
    included, the resolver returns the correction (0, 0) and leaves the mover
    where it was, whatever the intended motion; a second call on the result
    does the same. *)
Theorem resolve_separated_is_noop (mover static : Rect.t) (vx vy : R) :
  Rect.colliderect mover static = false \/ edge_touching mover static ->
  let first := resolve_aabb_overlap mover static vx vy in
  let second := resolve_aabb_overlap (fst first) static vx vy in
  first = (mover, (0, 0)%Z) /\ second = (mover, (0, 0)%Z).
Proof.
  intros H.
  assert (E : Rect.colliderect mover static = false).
  { destruct H as [E | T]; [exact E | exact (edge_touching_separate _ _ T)]. }
  cbv zeta. rewrite (resolve_separate mover static vx vy E). cbn [fst].
  rewrite (resolve_separate mover static vx vy E). split; reflexivity.
Qed.

Lemma resolve_separated_is_noop_witness :
  edge_touching (Rect.mk 0 0 50 50) (Rect.mk 50 20 50 50) /\
  resolve_aabb_overlap (Rect.mk 0 0 50 50) (Rect.mk 50 20 50 50) 1 0
  = (Rect.mk 0 0 50 50, (0, 0)%Z).
Proof.
  assert (T : edge_touching (Rect.mk 0 0 50 50) (Rect.mk 50 20 50 50)).
  { unfold edge_touching, Rect.proper; cbn. lia. }
  split; [exact T|].
  exact (proj1 (resolve_separated_is_noop (Rect.mk 0 0 50 50) (Rect.mk 50 20 50 50)
                  1 0 (or_intror T))).
Defined.

(** C7.  When the horizontal and the vertical overlap picked by the resolver
    have the same magnitude, the resolver pushes along the axis on which the
    intended speed is larger in magnitude, and along the horizontal axis when
    the two intended speeds are equal as well. *)
Theorem resolve_tie_break (mover static : Rect.t) (vx vy : R) :
  Rect.colliderect mover static = true ->
  Z.abs (min_x_overlap mover static) = Z.abs (min_y_overlap mover static) ->
  let mx := min_x_overlap mover static in
  let my := min_y_overlap mover static in
  let horizontal := (Rect.move mover (- mx) 0, ((- mx)%Z, 0%Z)) in
  let vertical := (Rect.move mover 0 (- my), (0%Z, (- my)%Z)) in
  (Rabs vy < Rabs vx -> resolve_aabb_overlap mover static vx vy = horizontal) /\
  (Rabs vx < Rabs vy -> resolve_aabb_overlap mover static vx vy = vertical) /\
  (Rabs vx = Rabs vy -> resolve_aabb_overlap mover static vx vy = horizontal).
Proof.
  intros E Htie. cbv zeta. unfold resolve_aabb_overlap. rewrite E. cbn [negb].
  rewrite Htie, Z.ltb_irrefl.
  repeat split; intros Hv.
  - rewrite (proj2 (Rgeb_true _ _)) by lra. reflexivity.
  - rewrite (proj2 (Rgeb_false _ _)) by lra. reflexivity.
  - rewrite (proj2 (Rgeb_true _ _)) by lra. reflexivity.
Qed.

Lemma resolve_tie_break_witness :
  resolve_aabb_overlap (Rect.mk 0 0 50 50) (Rect.mk 40 40 50 50) 1 1
  = (Rect.mk (-10) 0 50 50, ((-10)%Z, 0%Z)).
Proof.
  exact (proj2 (proj2 (resolve_tie_break (Rect.mk 0 0 50 50) (Rect.mk 40 40 50 50)
                         1 1 eq_refl eq_refl)) eq_refl).
Defined.

(** C9.  For two proper rectangles (every box of [main] is 50 by 50) that
    pass the overlap test guarding the box-box resolution, the two resolver
    calls yield corrections of positive total magnitude, so the zero-correction
    fallback is not taken: both resolved positions are written back. *)
Theorem fallback_unreachable (b1 b2 : Rect.t) (dx1 dy1 dx2 dy2 : R) :
  Rect.proper b1 -> Rect.proper b2 -> Rect.colliderect b1 b2 = true ->
  (0 < correction b1 b2 dx1 dy1 + correction b2 b1 dx2 dy2)%Z /\
  resolve_boxes b1 b2 dx1 dy1 dx2 dy2 =
  (Rect.set_topleft b1 (Rect.x (fst (resolve_aabb_overlap b1 b2 dx1 dy1)))
                       (Rect.y (fst (resolve_aabb_overlap b1 b2 dx1 dy1))),
   Rect.set_topleft b2 (Rect.x (fst (resolve_aabb_overlap b2 b1 dx2 dy2)))
                       (Rect.y (fst (resolve_aabb_overlap b2 b1 dx2 dy2)))).
Proof.
  intros H1 H2 E.
  assert (E' : Rect.colliderect b2 b1 = true).
  { apply (colliderect_proper b2 b1 H2 H1).
    apply (colliderect_proper b1 b2 H1 H2) in E. lia. }
  pose proof (correction_positive b1 b2 dx1 dy1 H1 H2 E).
  pose proof (correction_positive b2 b1 dx2 dy2 H2 H1 E').
  split; [lia|].
  apply resolve_boxes_unfold. apply Z.eqb_neq. lia.
Qed.

Lemma fallback_unreachable_witness :
  (0 < correction overlap_b1 overlap_b2 1 0 + correction overlap_b2 overlap_b1 0 0)%Z.
Proof.
  refine (proj1 (fallback_unreachable overlap_b1 overlap_b2 1 0 0 0 _ _ _)).
  - split; reflexivity.
  - split; reflexivity.
  - reflexivity.
Defined.

(** C1 (the code departs from it).  Whenever two proper boxes overlap at the
    box-box resolution, [main] writes back both resolved copies: box 1 and
    box 2 both move, instead of only the one with the smaller correction. *)
Theorem resolve_boxes_moves_both (b1 b2 : Rect.t) (dx1 dy1 dx2 dy2 : R) :
  Rect.proper b1 -> Rect.proper b2 -> Rect.colliderect b1 b2 = true ->
  fst (resolve_boxes b1 b2 dx1 dy1 dx2 dy2) <> b1 /\
  snd (resolve_boxes b1 b2 dx1 dy1 dx2 dy2) <> b2.
Proof.
  intros H1 H2 E.
  assert (E' : Rect.colliderect b2 b1 = true).
  { apply (colliderect_proper b2 b1 H2 H1).
    apply (colliderect_proper b1 b2 H1 H2) in E. lia. }
  pose proof (correction_positive b1 b2 dx1 dy1 H1 H2 E) as P1.
  pose proof (correction_positive b2 b1 dx2 dy2 H2 H1 E') as P2.
  rewrite resolve_boxes_unfold by (apply Z.eqb_neq; lia).
  unfold correction in P1, P2. cbn [fst snd].
  split; intros Heq.
  - destruct b1 as [x y w h]. unfold Rect.set_topleft in Heq. cbn in Heq.
    injection Heq as Hx Hy. cbn [Rect.x Rect.y] in P1. lia.
  - destruct b2 as [x y w h]. unfold Rect.set_topleft in Heq. cbn in Heq.
    injection Heq as Hx Hy. cbn [Rect.x Rect.y] in P2. lia.
Qed.

Lemma resolve_boxes_moves_both_witness :
  resolve_boxes overlap_b1 overlap_b2 0 0 0 0
  = (Rect.mk 92 335 50 50, Rect.mk 150 335 50 50) /\
  fst (resolve_boxes overlap_b1 overlap_b2 0 0 0 0) <> overlap_b1 /\
  snd (resolve_boxes overlap_b1 overlap_b2 0 0 0 0) <> overlap_b2.
Proof.
  split; [reflexivity|].
  apply (resolve_boxes_moves_both overlap_b1 overlap_b2 0 0 0 0).
  - split; reflexivity.
  - split; reflexivity.
  - reflexivity.
Defined.

(** ** The velocity reflector *)

(** C6.  The reflector returns [(v - 2 (v . n) n) * damping] for every
    velocity, normal and damping factor; reflecting (5, 0) about (1, 0) with
    damping 1 gives exactly (-5, 0). *)
Theorem reflect_formula :
  (forall vx vy nx ny damp : R,
      reflect_velocity_over_normal vx vy nx ny damp
      = vscale damp (vsub (vx, vy) (vscale (2 * vdot (vx, vy) (nx, ny)) (nx, ny))))
  /\ reflect_velocity_over_normal 5 0 1 0 1 = (-5, 0).
Proof.
  split.
  - intros. unfold reflect_velocity_over_normal, vscale, vsub, vdot.
    cbn [fst snd]. f_equal; ring.
  - unfold reflect_velocity_over_normal. f_equal; ring.
Qed.

(** Reflection about a unit normal keeps the length of a vector, so the
    reflector scales the speed by the damping factor. *)
Lemma hypot_scale (k a b : R) : 0 <= k -> hypot (a * k) (b * k) = k * hypot a b.
Proof.
  intros Hk. unfold hypot.
  replace (a * k * (a * k) + b * k * (b * k)) with ((k * k) * (a * a + b * b)) by ring.
  rewrite sqrt_mult by nra. rewrite sqrt_square by exact Hk. reflexivity.
Qed.

Lemma hypot_pos (a b : R) : a <> 0 \/ b <> 0 -> 0 < hypot a b.
Proof. intros H. unfold hypot. apply sqrt_lt_R0. nra. Qed.

Lemma hypot_nonneg (a b : R) : 0 <= hypot a b.
Proof. unfold hypot. apply sqrt_pos. Qed.

Lemma hypot_zero (a b : R) : hypot a b = 0 -> a = 0 /\ b = 0.
Proof.
  intros H. unfold hypot in H. apply sqrt_eq_0 in H; [|nra]. split; nra.
Qed.

Lemma reflect_speed (vx vy nx ny damp : R) :
  nx * nx + ny * ny = 1 -> 0 <= damp ->
  let r := reflect_velocity_over_normal vx vy nx ny damp in
  hypot (fst r) (snd r) = damp * hypot vx vy.
Proof.
  intros Hn Hd. unfold reflect_velocity_over_normal. cbn [fst snd].
  rewrite hypot_scale by exact Hd. f_equal. unfold hypot. f_equal.
  set (d := vx * nx + vy * ny).
  replace ((vx - 2 * d * nx) * (vx - 2 * d * nx) + (vy - 2 * d * ny) * (vy - 2 * d * ny))
    with (vx * vx + vy * vy - 4 * d * (vx * nx + vy * ny) + 4 * d * d * (nx * nx + ny * ny))
    by ring.
  rewrite Hn. unfold d. ring.
Qed.

(** The normalised push-out vector is a unit vector. *)
Lemma normalised_unit (px py : R) :
  px <> 0 \/ py <> 0 ->
  (px / hypot px py) * (px / hypot px py) + (py / hypot px py) * (py / hypot px py) = 1.
Proof.
  intros H. pose proof (hypot_pos px py H) as Hp.
  assert (Hsq : hypot px py * hypot px py = px * px + py * py).
  { unfold hypot. apply sqrt_sqrt. nra. }
  set (l := hypot px py) in *.
  replace (px / l * (px / l) + py / l * (py / l))
    with ((px * px + py * py) / (l * l)) by (field; lra).
  rewrite <- Hsq. field. lra.
Qed.

(** ** The circle/rectangle resolver *)

Lemma py_min_by_spec {A : Type} (key : A -> R) (xs : list A) (x0 : A) :
  In (py_min_by key x0 xs) (x0 :: xs) /\
  forall o, In o (x0 :: xs) -> key (py_min_by key x0 xs) <= key o.
Proof.
  revert x0. induction xs as [|x xs IH]; intros x0; cbn [py_min_by].
  - split; [left; reflexivity|]. intros o [<-|[]]. lra.
  - destruct (IH (if Rltb (key x) (key x0) then x else x0)) as [Hin Hmin].
    split.
    + destruct Hin as [Hin|Hin]; [|right; right; exact Hin].
      rewrite <- Hin. destruct (Rltb (key x) (key x0)); [right; left|left]; reflexivity.
    + intros o Ho.
      assert (Hb : key (py_min_by key (if Rltb (key x) (key x0) then x else x0) xs)
                   <= key (if Rltb (key x) (key x0) then x else x0))
        by (apply Hmin; left; reflexivity).
      destruct Ho as [<-|[<-|Ho]].
      * destruct (Rltb (key x) (key x0)) eqn:E; [apply Rltb_true in E|]; lra.
      * destruct (Rltb (key x) (key x0)) eqn:E; [|apply Rltb_false in E]; lra.
      * apply Hmin. right. exact Ho.
Qed.

Lemma closest_inside (c : R) (lo hi : R) :
  lo <= c <= hi -> Rmax lo (Rmin c hi) = c.
Proof. intros [H1 H2]. rewrite Rmin_left by lra. rewrite Rmax_right by lra. reflexivity. Qed.

(** With the centre on or inside the rectangle the resolver takes the
    zero-distance branch. *)
Lemma circle_rect_overlap_inside (cx cy r : R) (rect : Rect.t) :
  center_in_rect cx cy rect ->
  circle_rect_overlap cx cy r rect =
  match push_options cx cy r rect with
  | o :: os => py_min_by push_key o os
  | [] => (0, 0)
  end.
Proof.
  intros [Hx Hy]. unfold circle_rect_overlap, closest_x, closest_y.
  rewrite (closest_inside cx _ _ Hx), (closest_inside cy _ _ Hy).
  replace ((cx - cx) * (cx - cx) + (cy - cy) * (cy - cy)) with 0 by ring.
  unfold Rgtb. rewrite (proj2 (Rltb_false (r * r) 0)) by nra.
  rewrite (proj2 (Reqb_true 0 0)) by reflexivity. cbn [negb].
  rewrite (proj2 (Reqb_true 0 0)) by reflexivity. reflexivity.
Qed.

(** With the circle's centre on or inside the rectangle the resolver returns
    one of its four candidates, of minimal key among them. *)
Lemma zero_distance_push_in_options (cx cy r : R) (rect : Rect.t) :
  center_in_rect cx cy rect ->
  let p := circle_rect_overlap cx cy r rect in
  In p (push_options cx cy r rect) /\
  forall o, In o (push_options cx cy r rect) -> push_key p <= push_key o.
Proof.
  intros Hin. cbv zeta. rewrite (circle_rect_overlap_inside cx cy r rect Hin).
  unfold push_options. apply py_min_by_spec.
Qed.

(** ** The ball-box response *)

Lemma ball_vs_box_miss (pos vel : Vector2.t) (rect : Rect.t) (mvx mvy : R) :
  truthy (fst (ball_push pos rect)) || truthy (snd (ball_push pos rect)) = false ->
  ball_vs_box (pos, vel) (rect, mvx, mvy) = (pos, vel).
Proof.
  unfold ball_vs_box, ball_push.
  destruct (circle_rect_overlap _ _ _ _) as [px py]. cbn [fst snd].
  intros ->. reflexivity.
Qed.

Lemma ball_vs_box_hit (pos vel : Vector2.t) (rect : Rect.t) (mvx mvy : R) :
  truthy (fst (ball_push pos rect)) || truthy (snd (ball_push pos rect)) = true ->
  let px := fst (ball_push pos rect) in
  let py := snd (ball_push pos rect) in
  let nlen := hypot px py in
  let r := reflect_velocity_over_normal (Vector2.x vel - mvx) (Vector2.y vel - mvy)
             (px / nlen) (py / nlen) BALL_BOUNCE_DAMP in
  0 < nlen /\
  contact_normal px py = (px / nlen, py / nlen) /\
  ball_vs_box (pos, vel) (rect, mvx, mvy)
  = (Vector2.mk (Vector2.x pos + px) (Vector2.y pos + py),
     Vector2.mk (fst r + mvx) (snd r + mvy)).
Proof.
  unfold ball_vs_box, ball_push.
  destruct (circle_rect_overlap _ _ _ _) as [px py]. cbn [fst snd].
  intros G. cbv zeta.
  assert (Hp : 0 < hypot px py).
  { apply hypot_pos. apply orb_true_iff in G.
    destruct G as [G|G]; apply truthy_true in G; [left|right]; exact G. }
  assert (Hn : contact_normal px py = (px / hypot px py, py / hypot px py)).
  { unfold contact_normal. rewrite (proj2 (Reqb_false _ 0)) by lra. reflexivity. }
  split; [exact Hp|]. split; [exact Hn|].
  rewrite G, Hn. reflexivity.
Qed.

(** ** Evaluating the resolver and the loop body on concrete inputs *)

Lemma py_int_floor (f : R) (z : Z) :
  0 <= f -> IZR z <= f < IZR z + 1 -> py_int f = z.
Proof.
  intros H0 Hz. unfold py_int. destruct (Rle_dec 0 f) as [_|N]; [|contradiction].
  symmetry. apply Int_part_spec. lra.
Qed.

Lemma move_clamp_eval (p d dt : R) (limit : Z) (v : R) :
  p + d * SPEED * dt = v -> 0 <= v <= IZR limit -> move_clamp p d dt limit = v.
Proof.
  intros E H. unfold move_clamp. rewrite E.
  rewrite Rmin_left by lra. rewrite Rmax_right by lra. reflexivity.
Qed.

(** Closest point of an interval. *)
Lemma clamp_low (c lo hi : R) : c <= lo -> lo <= hi -> Rmax lo (Rmin c hi) = lo.
Proof. intros. rewrite Rmin_left by lra. rewrite Rmax_left by lra. reflexivity. Qed.

Lemma clamp_high (c lo hi : R) : hi <= c -> lo <= hi -> Rmax lo (Rmin c hi) = hi.
Proof. intros. rewrite Rmin_right by lra. rewrite Rmax_right by lra. reflexivity. Qed.

(** The regular branch of the resolver, from the offset [(dx, dy)] of the
    centre to the closest point and its length [dist]. *)
Lemma circle_rect_overlap_regular (cx cy r : R) (rect : Rect.t) (dx dy dist : R) :
  cx - closest_x cx rect = dx -> cy - closest_y cy rect = dy ->
  0 < dist -> dist * dist = dx * dx + dy * dy -> dist <= r ->
  circle_rect_overlap cx cy r rect = (dx / dist * (r - dist), dy / dist * (r - dist)).
Proof.
  intros Ex Ey Hd Hsq Hr. unfold circle_rect_overlap. rewrite Ex, Ey, <- Hsq.
  unfold Rgtb. rewrite (proj2 (Rltb_false (r * r) (dist * dist))) by nra.
  rewrite (proj2 (Reqb_false (dist * dist) 0)) by nra. cbn [negb].
  rewrite sqrt_square by lra.
  rewrite (proj2 (Reqb_false dist 0)) by lra. reflexivity.
Qed.

Lemma circle_rect_overlap_far (cx cy r : R) (rect : Rect.t) (dx dy : R) :
  cx - closest_x cx rect = dx -> cy - closest_y cy rect = dy ->
  r * r < dx * dx + dy * dy ->
  circle_rect_overlap cx cy r rect = (0, 0).
Proof.
  intros Ex Ey H. unfold circle_rect_overlap. rewrite Ex, Ey.
  unfold Rgtb. rewrite (proj2 (Rltb_true _ _)) by exact H. reflexivity.
Qed.

(** Integer constants under [IZR] are computed. *)
Ltac IZR_eval :=
  repeat match goal with
    | |- context [IZR ?z] =>
        let z' := eval vm_compute in z in
        progress change (IZR z) with (IZR z')
    end.

Ltac closest_eval :=
  unfold closest_x, closest_y; IZR_eval;
  repeat first [ rewrite clamp_low by lra
               | rewrite clamp_high by lra
               | rewrite closest_inside by lra ];
  try lra.

Ltac Rnum := unfold ball_r, BALL_RADIUS, WIDTH, HEIGHT, BOX_SIZE, SPEED,
  BALL_BOUNCE_DAMP, BALL_FRICTION, Rgtb in *; IZR_eval.

Lemma hypot_eval (a b l : R) : 0 <= l -> l * l = a * a + b * b -> hypot a b = l.
Proof. intros Hl E. unfold hypot. rewrite <- E. apply sqrt_square. exact Hl. Qed.

Lemma ball_vs_box_miss_eval (pos vel : Vector2.t) (rect : Rect.t) (mvx mvy : R) :
  ball_push pos rect = (0, 0) ->
  ball_vs_box (pos, vel) (rect, mvx, mvy) = (pos, vel).
Proof.
  intros E. apply ball_vs_box_miss. rewrite E. cbn [fst snd].
  rewrite (proj2 (truthy_false 0)) by reflexivity. reflexivity.
Qed.

Lemma ball_vs_box_hit_eval (pos vel : Vector2.t) (rect : Rect.t)
      (mvx mvy px py l : R) :
  ball_push pos rect = (px, py) -> px <> 0 \/ py <> 0 ->
  0 <= l -> l * l = px * px + py * py ->
  let r := reflect_velocity_over_normal (Vector2.x vel - mvx) (Vector2.y vel - mvy)
             (px / l) (py / l) BALL_BOUNCE_DAMP in
  ball_vs_box (pos, vel) (rect, mvx, mvy)
  = (Vector2.mk (Vector2.x pos + px) (Vector2.y pos + py),
     Vector2.mk (fst r + mvx) (snd r + mvy)).
Proof.
  intros E Hnz Hl Hsq. cbv zeta.
  assert (G : truthy (fst (ball_push pos rect)) || truthy (snd (ball_push pos rect))
              = true).
  { rewrite E. cbn [fst snd]. apply orb_true_iff.
    destruct Hnz as [H|H]; [left|right]; apply truthy_true; exact H. }
  destruct (ball_vs_box_hit pos vel rect mvx mvy G) as (_ & _ & ->).
  rewrite E. cbn [fst snd]. rewrite (hypot_eval px py l Hl Hsq). reflexivity.
Qed.

(** The wall checks. *)
Lemma wall_left_hit (pos vel : Vector2.t) :
  Vector2.x pos - ball_r < 0 ->
  wall_left (pos, vel)
  = (Vector2.mk ball_r (Vector2.y pos),
     Vector2.mk (- Vector2.x vel * BALL_BOUNCE_DAMP) (Vector2.y vel)).
Proof. intros H. unfold wall_left. rewrite (proj2 (Rltb_true _ _) H). reflexivity. Qed.

Lemma wall_left_miss (pos vel : Vector2.t) :
  0 <= Vector2.x pos - ball_r -> wall_left (pos, vel) = (pos, vel).
Proof. intros H. unfold wall_left. rewrite (proj2 (Rltb_false _ _) H). reflexivity. Qed.

Lemma wall_right_miss (pos vel : Vector2.t) :
  Vector2.x pos + ball_r <= IZR WIDTH -> wall_right (pos, vel) = (pos, vel).
Proof.
  intros H. unfold wall_right, Rgtb. rewrite (proj2 (Rltb_false _ _) H). reflexivity.
Qed.

Lemma wall_top_miss (pos vel : Vector2.t) :
  0 <= Vector2.y pos - ball_r -> wall_top (pos, vel) = (pos, vel).
Proof. intros H. unfold wall_top. rewrite (proj2 (Rltb_false _ _) H). reflexivity. Qed.

Lemma wall_bottom_miss (pos vel : Vector2.t) :
  Vector2.y pos + ball_r <= IZR HEIGHT -> wall_bottom (pos, vel) = (pos, vel).
Proof.
  intros H. unfold wall_bottom, Rgtb. rewrite (proj2 (Rltb_false _ _) H). reflexivity.
Qed.

(** The squeeze scenario, step by step. *)
Lemma squeeze_move_boxes :
  move_boxes squeeze_keys squeeze_dt squeeze_state
  = (mkState 98 100 186 100
             (Rect.mk 98 100 BOX_SIZE BOX_SIZE) (Rect.mk 186 100 BOX_SIZE BOX_SIZE)
             (Vector2.mk 170 125) (Vector2.mk 125 0),
     (0, 0), (-1, 0)).
Proof.
  unfold move_boxes, squeeze_keys, squeeze_state, squeeze_dt.
  cbn [K_RIGHT K_LEFT K_DOWN K_UP K_d K_a K_s K_w x1 y1 x2 y2 box1 box2
       ball_pos ball_vel].
  change (direction (key_axis false false) (key_axis false false)) with (0, 0).
  change (direction (key_axis false true) (key_axis false false)) with (-1, 0).
  cbv iota beta.
  rewrite (move_clamp_eval 98 0 _ _ 98) by (Rnum; lra).
  rewrite !(move_clamp_eval 100 0 _ _ 100) by (Rnum; lra).
  rewrite (move_clamp_eval 194 (-1) _ _ 186) by (Rnum; lra).
  rewrite (py_int_floor 98 98), (py_int_floor 100 100), (py_int_floor 186 186) by lra.
  reflexivity.
Qed.

Lemma squeeze_ball_free :
  ball_walls (ball_physics (Vector2.mk 170 125) (Vector2.mk 125 0) squeeze_dt)
  = squeeze_ball.
Proof.
  assert (E : ball_physics (Vector2.mk 170 125) (Vector2.mk 125 0) squeeze_dt
              = squeeze_ball).
  { unfold ball_physics, squeeze_dt, squeeze_ball. cbn [Vector2.x Vector2.y].
    Rnum. f_equal; f_equal; lra. }
  unfold squeeze_ball in *.
  rewrite E. unfold ball_walls.
  rewrite wall_left_miss by (cbn [Vector2.x Vector2.y]; Rnum; lra).
  rewrite wall_right_miss by (cbn [Vector2.x Vector2.y]; Rnum; lra).
  rewrite wall_top_miss by (cbn [Vector2.x Vector2.y]; Rnum; lra).
  rewrite wall_bottom_miss by (cbn [Vector2.x Vector2.y]; Rnum; lra).
  reflexivity.
Qed.

Lemma squeeze_push_box1 :
  ball_push (Vector2.mk 172 125) (Rect.mk 98 100 BOX_SIZE BOX_SIZE) = (0, 0).
Proof.
  unfold ball_push. cbn [Vector2.x Vector2.y].
  apply (circle_rect_overlap_far 172 125 ball_r _ 24 0); Rnum; closest_eval.
Qed.

Lemma squeeze_push_box2 :
  ball_push (Vector2.mk 172 125) (Rect.mk 186 100 BOX_SIZE BOX_SIZE) = (-8, 0).
Proof.
  unfold ball_push. cbn [Vector2.x Vector2.y].
  rewrite (circle_rect_overlap_regular 172 125 ball_r _ (-14) 0 14);
    try (Rnum; closest_eval).
  Rnum. f_equal; lra.
Qed.

Lemma squeeze_bounce :
  ball_vs_box squeeze_ball
              (Rect.mk 186 100 BOX_SIZE BOX_SIZE, -1 * SPEED, 0 * SPEED)
  = (Vector2.mk 164 125, Vector2.mk (- (109315625 / 100000)) 0).
Proof.
  unfold squeeze_ball.
  rewrite (ball_vs_box_hit_eval _ _ _ _ _ (-8) 0 8 squeeze_push_box2);
    try lra.
  unfold reflect_velocity_over_normal. cbn [fst snd Vector2.x Vector2.y].
  Rnum. f_equal; f_equal; lra.
Qed.

Lemma squeeze_tick :
  tick squeeze_keys squeeze_dt squeeze_state
  = mkState 98 100 186 100
            (Rect.mk 98 100 BOX_SIZE BOX_SIZE) (Rect.mk 186 100 BOX_SIZE BOX_SIZE)
            (Vector2.mk 164 125) (Vector2.mk (- (109315625 / 100000)) 0).
Proof.
  unfold tick. rewrite squeeze_move_boxes. cbv iota beta.
  cbn [x1 y1 x2 y2 box1 box2 ball_pos ball_vel].
  rewrite squeeze_ball_free. unfold ball_vs_boxes. cbn [fold_left].
  unfold squeeze_ball at 1.
  rewrite (ball_vs_box_miss_eval _ _ _ _ _ squeeze_push_box1).
  fold squeeze_ball. rewrite squeeze_bounce. reflexivity.
Qed.

(** ** A single push-out separates the ball from the box it was computed for *)

Lemma clamp_cases (c lo hi : R) :
  lo <= hi ->
  (c < lo /\ Rmax lo (Rmin c hi) = lo) \/
  (lo <= c <= hi /\ Rmax lo (Rmin c hi) = c) \/
  (hi < c /\ Rmax lo (Rmin c hi) = hi).
Proof.
  intros H. destruct (Rlt_dec c lo) as [Hlo|Hlo].
  - left. split; [exact Hlo|]. apply clamp_low; lra.
  - destruct (Rlt_dec hi c) as [Hhi|Hhi].
    + right; right. split; [exact Hhi|]. apply clamp_high; lra.
    + right; left. split; [lra|]. apply closest_inside; lra.
Qed.

(** Moving the centre away from its closest point, along the line through
    both, keeps the closest point. *)
Lemma clamp_ray (c lo hi k : R) :
  lo <= hi -> 0 <= k ->
  Rmax lo (Rmin (c + (c - Rmax lo (Rmin c hi)) * k) hi) = Rmax lo (Rmin c hi).
Proof.
  intros H Hk.
  destruct (clamp_cases c lo hi H) as [[Hc ->]|[[Hc ->]|[Hc ->]]].
  - apply clamp_low; nra.
  - replace (c + (c - c) * k) with c by ring. apply closest_inside; exact Hc.
  - apply clamp_high; nra.
Qed.

Lemma offset_nonzero (cx cy : R) (rect : Rect.t) :
  IZR (Rect.left rect) <= IZR (Rect.right rect) ->
  IZR (Rect.top rect) <= IZR (Rect.bottom rect) ->
  ~ center_in_rect cx cy rect ->
  0 < (cx - closest_x cx rect) * (cx - closest_x cx rect)
      + (cy - closest_y cy rect) * (cy - closest_y cy rect).
Proof.
  intros Hx Hy Hout. unfold closest_x, closest_y.
  destruct (clamp_cases cx _ _ Hx) as [[Hc ->]|[[Hc ->]|[Hc ->]]];
    destruct (clamp_cases cy _ _ Hy) as [[Hd ->]|[[Hd ->]|[Hd ->]]];
    try nra.
  exfalso. apply Hout. split; assumption.
Qed.

Lemma circle_rect_push_resolves (cx cy r : R) (rect : Rect.t) :
  0 < r ->
  IZR (Rect.left rect) <= IZR (Rect.right rect) ->
  IZR (Rect.top rect) <= IZR (Rect.bottom rect) ->
  ~ center_in_rect cx cy rect ->
  let p := circle_rect_overlap cx cy r rect in
  circle_rect_overlap (cx + fst p) (cy + snd p) r rect = (0, 0).
Proof.
  intros Hr Hx Hy Hout. cbv zeta.
  pose proof (offset_nonzero cx cy rect Hx Hy Hout) as Hpos.
  set (dx := cx - closest_x cx rect) in *.
  set (dy := cy - closest_y cy rect) in *.
  destruct (Rlt_dec (r * r) (dx * dx + dy * dy)) as [Hfar|Hnear].
  - rewrite (circle_rect_overlap_far cx cy r rect dx dy eq_refl eq_refl Hfar).
    cbn [fst snd]. rewrite !Rplus_0_r.
    exact (circle_rect_overlap_far cx cy r rect dx dy eq_refl eq_refl Hfar).
  - set (dist := sqrt (dx * dx + dy * dy)).
    assert (Hd : 0 < dist) by (apply sqrt_lt_R0; exact Hpos).
    assert (Hsq : dist * dist = dx * dx + dy * dy) by (apply sqrt_sqrt; lra).
    assert (Hle : dist <= r) by nra.
    rewrite (circle_rect_overlap_regular cx cy r rect dx dy dist
               eq_refl eq_refl Hd Hsq Hle).
    cbn [fst snd].
    set (k := (r - dist) / dist).
    assert (Hk : 0 <= k).
    { unfold k, Rdiv. apply Rmult_le_pos; [lra|].
      left. apply Rinv_0_lt_compat. exact Hd. }
    replace (dx / dist * (r - dist)) with (dx * k) by (unfold k; field; lra).
    replace (dy / dist * (r - dist)) with (dy * k) by (unfold k; field; lra).
    assert (H1k : 1 + k = r / dist) by (unfold k; field; lra).
    rewrite (circle_rect_overlap_regular (cx + dx * k) (cy + dy * k) r rect
               (dx * (1 + k)) (dy * (1 + k)) r).
    + f_equal; unfold Rdiv; ring.
    + unfold dx, closest_x. rewrite clamp_ray by assumption. ring.
    + unfold dy, closest_y. rewrite clamp_ray by assumption. ring.
    + exact Hr.
    + rewrite H1k.
      replace (dx * (r / dist) * (dx * (r / dist)) + dy * (r / dist) * (dy * (r / dist)))
        with ((dx * dx + dy * dy) * (r * r) / (dist * dist)) by (field; lra).
      rewrite <- Hsq. field. lra.
    + lra.
Qed.

Lemma outside_not_inside (p : Vector2.t) (rect : Rect.t) :
  center_outside p rect -> ~ center_in_rect (Vector2.x p) (Vector2.y p) rect.
Proof. unfold center_outside, center_in_rect. intros H [Hx Hy]. lra. Qed.

Lemma proper_edges (rect : Rect.t) :
  Rect.proper rect ->
  IZR (Rect.left rect) <= IZR (Rect.right rect) /\
  IZR (Rect.top rect) <= IZR (Rect.bottom rect).
Proof.
  intros [Hw Hh]. unfold Rect.left, Rect.right, Rect.top, Rect.bottom.
  split; apply IZR_le; lia.
Qed.

(** The position part of the ball-box response: the push-out is added to
    the position whether or not the response runs (it is zero when it does
    not). *)
Lemma ball_vs_box_position (pos vel : Vector2.t) (rect : Rect.t) (mvx mvy : R) :
  fst (ball_vs_box (pos, vel) (rect, mvx, mvy))
  = Vector2.mk (Vector2.x pos + fst (ball_push pos rect))
               (Vector2.y pos + snd (ball_push pos rect)).
Proof.
  destruct (truthy (fst (ball_push pos rect)) || truthy (snd (ball_push pos rect)))
    eqn:G.
  - destruct (ball_vs_box_hit pos vel rect mvx mvy G) as (_ & _ & ->). reflexivity.
  - rewrite (ball_vs_box_miss pos vel rect mvx mvy G). cbn [fst].
    apply orb_false_iff in G. destruct G as [G1 G2].
    apply truthy_false in G1, G2. rewrite G1, G2, !Rplus_0_r.
    destruct pos; reflexivity.
Qed.

Lemma ball_vs_box_resolves (pos vel : Vector2.t) (rect : Rect.t) (mvx mvy : R) :
  Rect.proper rect -> center_outside pos rect ->
  ball_push (fst (ball_vs_box (pos, vel) (rect, mvx, mvy))) rect = (0, 0).
Proof.
  intros Hp Hout. rewrite ball_vs_box_position. unfold ball_push.
  cbn [Vector2.x Vector2.y]. destruct (proper_edges rect Hp) as [Hx Hy].
  apply circle_rect_push_resolves; try assumption.
  - unfold ball_r, BALL_RADIUS. lra.
  - apply outside_not_inside. exact Hout.
Qed.

(** ** The ball at the end of an iteration *)

Lemma resolve_boxes_size (b1 b2 : Rect.t) (dx1 dy1 dx2 dy2 : R) :
  let rb := resolve_boxes b1 b2 dx1 dy1 dx2 dy2 in
  (Rect.w (fst rb) = Rect.w b1 /\ Rect.h (fst rb) = Rect.h b1) /\
  (Rect.w (snd rb) = Rect.w b2 /\ Rect.h (snd rb) = Rect.h b2).
Proof.
  cbv zeta. unfold resolve_boxes.
  repeat match goal with |- context [if ?c then _ else _] => destruct c end;
    repeat split; reflexivity.
Qed.

Lemma move_boxes_proper (keys : Keys) (dt : R) (s : State) :
  Rect.proper (box1 s) -> Rect.proper (box2 s) ->
  Rect.proper (box1 (fst (fst (move_boxes keys dt s)))) /\
  Rect.proper (box2 (fst (fst (move_boxes keys dt s)))).
Proof.
  intros H1 H2. unfold move_boxes.
  destruct (direction _ _) as [dx1 dy1]. destruct (direction _ _) as [dx2 dy2].
  destruct (Rect.colliderect _ _).
  - match goal with |- context [resolve_boxes ?a ?b ?c ?d ?e ?f] =>
      pose proof (resolve_boxes_size a b c d e f) as Hs;
      destruct (resolve_boxes a b c d e f) as [b1' b2'] end.
    cbv zeta in Hs. unfold Rect.set_topleft in Hs.
    cbn [fst snd Rect.w Rect.h] in Hs.
    destruct Hs as [[Hw1 Hh1] [Hw2 Hh2]].
    unfold Rect.proper in *. cbn [fst snd box1 box2].
    rewrite Hw1, Hh1, Hw2, Hh2. split; assumption.
  - cbn [fst box1 box2]. split; assumption.
Qed.

Lemma move_boxes_ball (keys : Keys) (dt : R) (s : State) :
  ball_pos (fst (fst (move_boxes keys dt s))) = ball_pos s /\
  ball_vel (fst (fst (move_boxes keys dt s))) = ball_vel s.
Proof.
  unfold move_boxes.
  destruct (direction _ _) as [dx1 dy1]. destruct (direction _ _) as [dx2 dy2].
  destruct (Rect.colliderect _ _); [destruct (resolve_boxes _ _ _ _ _ _)|];
    split; reflexivity.
Qed.

Lemma tick_ball (keys : Keys) (dt : R) (s : State) :
  let s1 := fst (fst (move_boxes keys dt s)) in
  let d2 := snd (move_boxes keys dt s) in
  let pv := ball_vs_box (ball_after_box1 keys dt s)
                        (box2 s1, fst d2 * SPEED, snd d2 * SPEED) in
  tick keys dt s
  = mkState (x1 s1) (y1 s1) (x2 s1) (y2 s1) (box1 s1) (box2 s1) (fst pv) (snd pv).
Proof.
  cbv zeta. unfold tick, ball_after_box1, ball_before_boxes.
  destruct (move_boxes keys dt s) as [[s1 [dx1 dy1]] [dx2 dy2]].
  cbn [fst snd]. unfold ball_vs_boxes. cbn [fold_left].
  destruct (ball_vs_box (ball_vs_box _ _) _) as [pos vel]. reflexivity.
Qed.

(** C2, as the code has it.  At the end of an iteration the push-out of the
    ball against box 2, the box tested last, is exactly (0, 0), provided the
    ball's centre was strictly outside box 2 when box 2 was tested.  The same
    holds against box 1 when, in addition, the centre was strictly outside
    box 1 when box 1 was tested and the response to box 2 left the ball where
    the response to box 1 had put it. *)
Theorem tick_ball_clear_of_boxes (keys : Keys) (dt : R) (s : State) :
  Rect.proper (box1 s) -> Rect.proper (box2 s) ->
  let s' := tick keys dt s in
  center_outside (fst (ball_after_box1 keys dt s)) (box2 s') ->
  ball_push (ball_pos s') (box2 s') = (0, 0) /\
  (center_outside (fst (ball_before_boxes keys dt s)) (box1 s') ->
   ball_pos s' = fst (ball_after_box1 keys dt s) ->
   ball_push (ball_pos s') (box1 s') = (0, 0)).
Proof.
  intros H1 H2. cbv zeta. rewrite tick_ball. cbn [ball_pos box1 box2].
  destruct (move_boxes_proper keys dt s H1 H2) as [P1 P2].
  intros Hout2. split.
  - destruct (ball_after_box1 keys dt s) as [pos vel]. cbn [fst] in Hout2.
    apply ball_vs_box_resolves; assumption.
  - intros Hout1 ->. unfold ball_after_box1.
    destruct (move_boxes keys dt s) as [[s1 [dx1 dy1]] [dx2 dy2]].
    cbn [fst] in *.
    destruct (ball_before_boxes keys dt s) as [pos vel]. cbn [fst] in Hout1.
    apply ball_vs_box_resolves; assumption.
Qed.

(** The squeeze scenario starts with the ball clear of both boxes and the
    boxes clear of each other. *)
Lemma squeeze_starts_clear :
  ball_push (ball_pos squeeze_state) (box1 squeeze_state) = (0, 0) /\
  ball_push (ball_pos squeeze_state) (box2 squeeze_state) = (0, 0) /\
  Rect.colliderect (box1 squeeze_state) (box2 squeeze_state) = false.
Proof.
  unfold squeeze_state, ball_push. cbn [ball_pos box1 box2 Vector2.x Vector2.y].
  split; [|split; [|reflexivity]].
  - rewrite (circle_rect_overlap_regular 170 125 ball_r _ 22 0 22);
      try (Rnum; closest_eval).
    Rnum. f_equal; lra.
  - apply (circle_rect_overlap_far 170 125 ball_r _ (-24) 0); Rnum; closest_eval.
Qed.

Lemma squeeze_after_box1 :
  ball_after_box1 squeeze_keys squeeze_dt squeeze_state = squeeze_ball.
Proof.
  unfold ball_after_box1, ball_before_boxes. rewrite squeeze_move_boxes.
  cbn [fst snd box1 ball_pos ball_vel]. rewrite squeeze_ball_free.
  exact (ball_vs_box_miss_eval _ _ _ _ _ squeeze_push_box1).
Qed.

Lemma tick_ball_clear_of_boxes_witness :
  ball_push (ball_pos (tick squeeze_keys squeeze_dt squeeze_state))
            (box2 (tick squeeze_keys squeeze_dt squeeze_state)) = (0, 0).
Proof.
  refine (proj1 (tick_ball_clear_of_boxes squeeze_keys squeeze_dt squeeze_state _ _ _)).
  - split; reflexivity.
  - split; reflexivity.
  - rewrite squeeze_after_box1, squeeze_tick. unfold center_outside, squeeze_ball.
    cbn [fst box2 Vector2.x Vector2.y]. left. Rnum. lra.
Defined.

(** C2 fails as stated: in the squeeze scenario no body overlaps another when
    the iteration starts; box 2 then moves 8 pixels toward the ball, the
    response to box 2 pushes the ball 8 pixels to the left, 6 pixels into
    box 1, and box 1 is not tested again: the recomputed push-out against
    box 1 is (6, 0). *)
Lemma squeeze_ball_ends_in_box1 :
  let s' := tick squeeze_keys squeeze_dt squeeze_state in
  ball_push (ball_pos s') (box1 s') = (6, 0) /\
  ball_push (ball_pos s') (box1 s') <> (0, 0).
Proof.
  cbv zeta. rewrite squeeze_tick. cbn [ball_pos box1].
  assert (E : ball_push (Vector2.mk 164 125) (Rect.mk 98 100 BOX_SIZE BOX_SIZE)
              = (6, 0)).
  { unfold ball_push. cbn [Vector2.x Vector2.y].
    rewrite (circle_rect_overlap_regular 164 125 ball_r _ 16 0 16);
      try (Rnum; closest_eval).
    Rnum. f_equal; lra. }
  rewrite E. split; [reflexivity|]. intros H. injection H as H. lra.
Qed.

(** C10.  The ball-box response runs only when the push-out vector is not
    (0, 0); its length is then positive, the test [nlen == 0] fails, and the
    contact normal is the normalised push-out vector, never the default
    (0, -1). *)
Theorem default_normal_unreachable (pos vel : Vector2.t) (rect : Rect.t)
        (mvx mvy : R) :
  let px := fst (ball_push pos rect) in
  let py := snd (ball_push pos rect) in
  let nlen := hypot px py in
  let r := reflect_velocity_over_normal (Vector2.x vel - mvx) (Vector2.y vel - mvy)
             (px / nlen) (py / nlen) BALL_BOUNCE_DAMP in
  truthy px || truthy py = true ->
  0 < nlen /\ Reqb nlen 0 = false /\
  contact_normal px py = (px / nlen, py / nlen) /\
  ball_vs_box (pos, vel) (rect, mvx, mvy)
  = (Vector2.mk (Vector2.x pos + px) (Vector2.y pos + py),
     Vector2.mk (fst r + mvx) (snd r + mvy)).
Proof.
  cbv zeta. intros G.
  destruct (ball_vs_box_hit pos vel rect mvx mvy G) as (Hp & Hn & Hb).
  split; [exact Hp|]. split; [apply Reqb_false; lra|].
  split; [exact Hn | exact Hb].
Qed.

Lemma default_normal_unreachable_witness :
  contact_normal
    (fst (ball_push (Vector2.mk 172 125) (Rect.mk 186 100 BOX_SIZE BOX_SIZE)))
    (snd (ball_push (Vector2.mk 172 125) (Rect.mk 186 100 BOX_SIZE BOX_SIZE)))
  <> (0, -1).
Proof.
  assert (G : truthy (fst (ball_push (Vector2.mk 172 125)
                                     (Rect.mk 186 100 BOX_SIZE BOX_SIZE)))
              || truthy (snd (ball_push (Vector2.mk 172 125)
                                        (Rect.mk 186 100 BOX_SIZE BOX_SIZE)))
              = true).
  { rewrite squeeze_push_box2. cbn [fst snd]. apply orb_true_iff. left.
    apply truthy_true. lra. }
  destruct (default_normal_unreachable (Vector2.mk 172 125) (Vector2.mk 0 0)
              (Rect.mk 186 100 BOX_SIZE BOX_SIZE) (-500) 0 G) as (_ & _ & Hn & _).
  rewrite Hn. rewrite squeeze_push_box2. cbn [fst snd].
  rewrite (hypot_eval (-8) 0 8) by lra.
  intros H. injection H as H1 H2. lra.
Defined.

(** ** Speed across a bounce *)

Lemma hypot_mono (a b c d : R) :
  a * a + b * b <= c * c + d * d -> hypot a b <= hypot c d.
Proof. intros H. unfold hypot. apply sqrt_le_1; nra. Qed.

Lemma hypot_strict (a b c d : R) :
  a * a + b * b < c * c + d * d -> hypot a b < hypot c d.
Proof. intros H. unfold hypot. apply sqrt_lt_1; nra. Qed.

Lemma square_pos (a : R) : a <> 0 -> 0 < a * a.
Proof. intros H. destruct (Rtotal_order a 0) as [L|[E|G]]; [nra|contradiction|nra]. Qed.

(** A wall check that fires damps one velocity component and keeps the
    other. *)
Lemma damped_component_speed (a b : R) :
  hypot (- a * BALL_BOUNCE_DAMP - 0) (b - 0) <= hypot (a - 0) (b - 0) /\
  (a <> 0 -> hypot (- a * BALL_BOUNCE_DAMP - 0) (b - 0) < hypot (a - 0) (b - 0)).
Proof.
  unfold BALL_BOUNCE_DAMP. split.
  - apply hypot_mono. nra.
  - intros H. apply square_pos in H. apply hypot_strict. nra.
Qed.

Lemma hypot_swap (a b : R) : hypot a b = hypot b a.
Proof. unfold hypot. f_equal. ring. Qed.

(** The ball-box response multiplies the speed relative to the box by the
    damping factor. *)
Lemma ball_vs_box_rel_speed (pos vel : Vector2.t) (rect : Rect.t) (mvx mvy : R) :
  truthy (fst (ball_push pos rect)) || truthy (snd (ball_push pos rect)) = true ->
  rel_speed (snd (ball_vs_box (pos, vel) (rect, mvx, mvy))) (mvx, mvy)
  = BALL_BOUNCE_DAMP * rel_speed vel (mvx, mvy).
Proof.
  intros G. destruct (ball_vs_box_hit pos vel rect mvx mvy G) as (Hp & _ & ->).
  cbn [snd]. unfold rel_speed. cbn [fst snd Vector2.x Vector2.y].
  set (px := fst (ball_push pos rect)) in *.
  set (py := snd (ball_push pos rect)) in *.
  assert (Hnz : px <> 0 \/ py <> 0).
  { apply orb_true_iff in G.
    destruct G as [G|G]; apply truthy_true in G; [left|right]; exact G. }
  pose proof (reflect_speed (Vector2.x vel - mvx) (Vector2.y vel - mvy)
                (px / hypot px py) (py / hypot px py) BALL_BOUNCE_DAMP
                (normalised_unit px py Hnz)) as Hs.
  cbv zeta in Hs. rewrite <- Hs by (unfold BALL_BOUNCE_DAMP; lra).
  f_equal; ring.
Qed.

Lemma hypot_sq (a b : R) : hypot a b * hypot a b = a * a + b * b.
Proof. unfold hypot. apply sqrt_sqrt. nra. Qed.

(** From the square of a speed to the speed. *)
Lemma speed_law (s s' k : R) :
  0 <= s -> 0 <= s' -> 0 <= k -> s' * s' = s * s - k ->
  s' <= s /\ (k <> 0 -> s' < s) /\ (k = 0 -> s' = s).
Proof. intros Hs Hs' Hk E. repeat split; intros; nra. Qed.

(** C3, as the code has it.  Across every bounce, with [d] the bounce
    damping, the speed of the ball relative to the obstacle (a wall, at rest,
    or a box moving at its velocity of this tick) obeys
    speed'^2 = speed^2 - (1 - d^2) c^2, where [c] is the part of the incoming
    velocity that the bounce damps: the component across the wall, or the
    whole relative velocity for a box.  So the relative speed never
    increases, strictly decreases whenever [c] is not zero, and is unchanged
    when [c] is zero.  Against a box at rest this is the ball's own speed. *)
Theorem bounce_speed (v : Vector2.t) (m : R * R) (c : R) (v' : Vector2.t) :
  bounce v m c v' ->
  rel_speed v' m * rel_speed v' m
  = rel_speed v m * rel_speed v m
    - (1 - BALL_BOUNCE_DAMP * BALL_BOUNCE_DAMP) * (c * c) /\
  rel_speed v' m <= rel_speed v m /\
  (c <> 0 -> rel_speed v' m < rel_speed v m) /\
  (c = 0 -> rel_speed v' m = rel_speed v m).
Proof.
  intros H.
  assert (Law : rel_speed v' m * rel_speed v' m
                = rel_speed v m * rel_speed v m
                  - (1 - BALL_BOUNCE_DAMP * BALL_BOUNCE_DAMP) * (c * c)).
  { destruct H as [pos [vx vy] G | pos [vx vy] G | pos [vx vy] G
                  | pos [vx vy] G | pos vel rect mvx mvy G].
    - unfold wall_left. rewrite G. unfold rel_speed.
      cbn [fst snd Vector2.x Vector2.y]. rewrite !hypot_sq. ring.
    - unfold wall_right. rewrite G. unfold rel_speed.
      cbn [fst snd Vector2.x Vector2.y]. rewrite !hypot_sq. ring.
    - unfold wall_top. rewrite G. unfold rel_speed.
      cbn [fst snd Vector2.x Vector2.y]. rewrite !hypot_sq. ring.
    - unfold wall_bottom. rewrite G. unfold rel_speed.
      cbn [fst snd Vector2.x Vector2.y]. rewrite !hypot_sq. ring.
    - rewrite (ball_vs_box_rel_speed pos vel rect mvx mvy G). ring. }
  split; [exact Law|].
  assert (Hs : 0 <= rel_speed v m) by (unfold rel_speed; apply hypot_nonneg).
  assert (Hs' : 0 <= rel_speed v' m) by (unfold rel_speed; apply hypot_nonneg).
  assert (Hk : 0 <= (1 - BALL_BOUNCE_DAMP * BALL_BOUNCE_DAMP) * (c * c))
    by (unfold BALL_BOUNCE_DAMP; nra).
  destruct (speed_law _ _ _ Hs Hs' Hk Law) as (Hle & Hlt & Heq).
  split; [exact Hle|]. split.
  - intros Hc. apply Hlt. apply square_pos in Hc. unfold BALL_BOUNCE_DAMP. nra.
  - intros ->. apply Heq. ring.
Qed.

Lemma bounce_speed_witness :
  rel_speed (snd (wall_left (Vector2.mk 5 300, Vector2.mk (-100) 0))) (0, 0)
  < rel_speed (Vector2.mk (-100) 0) (0, 0).
Proof.
  assert (B : bounce (Vector2.mk (-100) 0) (0, 0) (-100)
                     (snd (wall_left (Vector2.mk 5 300, Vector2.mk (-100) 0)))).
  { apply (bounce_left (Vector2.mk 5 300) (Vector2.mk (-100) 0)).
    apply Rltb_true. cbn [Vector2.x]. Rnum. lra. }
  refine (proj1 (proj2 (proj2 (bounce_speed _ _ _ _ B))) _). lra.
Defined.

(** C3 fails as stated, twice.  In the squeeze scenario the ball moves right
    at 124.375 when box 2, moving left at 500, runs into it; the response
    reflects the velocity relative to the box and adds the box's velocity
    back, and the ball leaves at 1093.15625.  And a ball that is over the
    left wall while moving along it, at (0, 5), goes through the wall bounce
    with its speed unchanged. *)
Lemma moving_box_speeds_ball_up :
  let b := (Rect.mk 186 100 BOX_SIZE BOX_SIZE, -1 * SPEED, 0 * SPEED) in
  let along := (Vector2.mk 10 300, Vector2.mk 0 5) in
  (bounce (snd squeeze_ball) (-1 * SPEED, 0 * SPEED)
          (rel_speed (snd squeeze_ball) (-1 * SPEED, 0 * SPEED))
          (snd (ball_vs_box squeeze_ball b)) /\
   ball_vel (tick squeeze_keys squeeze_dt squeeze_state)
   = snd (ball_vs_box squeeze_ball b) /\
   Vector2.length (snd squeeze_ball) = 124375 / 1000 /\
   Vector2.length (snd (ball_vs_box squeeze_ball b)) = 109315625 / 100000 /\
   Vector2.length (snd squeeze_ball)
   < Vector2.length (snd (ball_vs_box squeeze_ball b))) /\
  (bounce (snd along) (0, 0) 0 (snd (wall_left along)) /\
   Vector2.length (snd (wall_left along)) = Vector2.length (snd along)).
Proof.
  cbv zeta. split.
  - assert (L1 : Vector2.length (snd squeeze_ball) = 124375 / 1000).
    { unfold squeeze_ball, Vector2.length. cbn [snd Vector2.x Vector2.y].
      apply hypot_eval; lra. }
    assert (L2 : Vector2.length
                   (snd (ball_vs_box squeeze_ball
                           (Rect.mk 186 100 BOX_SIZE BOX_SIZE, -1 * SPEED, 0 * SPEED)))
                 = 109315625 / 100000).
    { rewrite squeeze_bounce. unfold Vector2.length. cbn [snd Vector2.x Vector2.y].
      apply hypot_eval; lra. }
    split; [|split; [|split; [exact L1|split; [exact L2|]]]].
    + unfold squeeze_ball at 1 2 3. cbn [snd]. apply bounce_box.
      rewrite squeeze_push_box2. cbn [fst snd].
      apply orb_true_iff. left. apply truthy_true. lra.
    + rewrite squeeze_tick, squeeze_bounce. reflexivity.
    + rewrite L1, L2. lra.
  - split.
    + apply (bounce_left (Vector2.mk 10 300) (Vector2.mk 0 5)).
      apply Rltb_true. cbn [Vector2.x]. Rnum. lra.
    + rewrite wall_left_hit by (cbn [Vector2.x]; Rnum; lra).
      cbn [snd]. unfold Vector2.length. cbn [Vector2.x Vector2.y].
      unfold hypot. f_equal. ring.
Qed.

(** ** The boundary clamp scenario *)

Lemma clamp_ball_walls (dt : R) :
  0 <= dt ->
  ball_walls (ball_physics (Vector2.mk 5 300) (Vector2.mk (-100) 0) dt)
  = (Vector2.mk 22 300,
     Vector2.mk (100 * BALL_FRICTION * BALL_BOUNCE_DAMP) 0).
Proof.
  intros Hdt. unfold ball_physics, ball_walls. cbn [Vector2.x Vector2.y].
  rewrite wall_left_hit by (cbn [Vector2.x Vector2.y]; Rnum; lra).
  cbn [Vector2.x Vector2.y].
  rewrite wall_right_miss by (cbn [Vector2.x Vector2.y]; Rnum; lra).
  rewrite wall_top_miss by (cbn [Vector2.x Vector2.y]; Rnum; lra).
  rewrite wall_bottom_miss by (cbn [Vector2.x Vector2.y]; Rnum; lra).
  Rnum. f_equal; f_equal; lra.
Qed.

(** One iteration from a state with the ball at (5, 300) moving left at 100,
    when the ball clamped to the wall touches neither box. *)
Lemma clamp_tick (keys : Keys) (dt : R) (s : State) :
  0 <= dt ->
  ball_pos s = Vector2.mk 5 300 -> ball_vel s = Vector2.mk (-100) 0 ->
  ball_push (Vector2.mk 22 300) (box1 (fst (fst (move_boxes keys dt s)))) = (0, 0) ->
  ball_push (Vector2.mk 22 300) (box2 (fst (fst (move_boxes keys dt s)))) = (0, 0) ->
  ball_pos (tick keys dt s) = Vector2.mk 22 300 /\
  ball_vel (tick keys dt s)
  = Vector2.mk (100 * BALL_FRICTION * BALL_BOUNCE_DAMP) 0.
Proof.
  intros Hdt Hpos Hvel.
  rewrite tick_ball. cbn [ball_pos ball_vel].
  unfold ball_after_box1, ball_before_boxes.
  destruct (move_boxes_ball keys dt s) as [Ep Ev].
  destruct (move_boxes keys dt s) as [[s1 [dx1 dy1]] [dx2 dy2]].
  cbn [fst snd] in *. intros H1 H2.
  rewrite Ep, Ev, Hpos, Hvel, (clamp_ball_walls dt Hdt).
  rewrite (ball_vs_box_miss_eval _ _ _ _ _ H1).
  rewrite (ball_vs_box_miss_eval _ _ _ _ _ H2).
  split; reflexivity.
Qed.

Lemma clamp_move_boxes :
  box1 (fst (fst (move_boxes no_keys (16 / 1000) clamp_state)))
  = Rect.mk 758 335 BOX_SIZE BOX_SIZE /\
  box2 (fst (fst (move_boxes no_keys (16 / 1000) clamp_state)))
  = Rect.mk 227 335 BOX_SIZE BOX_SIZE.
Proof.
  unfold move_boxes, no_keys, clamp_state, initial_state.
  cbn [K_RIGHT K_LEFT K_DOWN K_UP K_d K_a K_s K_w x1 y1 x2 y2 box1 box2
       ball_pos ball_vel].
  change (direction (key_axis false false) (key_axis false false)) with (0, 0).
  cbv iota beta.
  rewrite (move_clamp_eval (IZR (WIDTH - BOX_SIZE) / (12 / 10)) 0 _ _
             (IZR (WIDTH - BOX_SIZE) / (12 / 10))) by (Rnum; lra).
  rewrite !(move_clamp_eval (IZR (HEIGHT - BOX_SIZE) / 2) 0 _ _
             (IZR (HEIGHT - BOX_SIZE) / 2)) by (Rnum; lra).
  rewrite (move_clamp_eval (IZR (WIDTH - BOX_SIZE) / 4) 0 _ _
             (IZR (WIDTH - BOX_SIZE) / 4)) by (Rnum; lra).
  rewrite (py_int_floor (IZR (WIDTH - BOX_SIZE) / (12 / 10)) 758) by (Rnum; lra).
  rewrite (py_int_floor (IZR (HEIGHT - BOX_SIZE) / 2) 335) by (Rnum; lra).
  rewrite (py_int_floor (IZR (WIDTH - BOX_SIZE) / 4) 227) by (Rnum; lra).
  split; reflexivity.
Qed.

Lemma clamp_pushes :
  ball_push (Vector2.mk 22 300)
            (box1 (fst (fst (move_boxes no_keys (16 / 1000) clamp_state)))) = (0, 0) /\
  ball_push (Vector2.mk 22 300)
            (box2 (fst (fst (move_boxes no_keys (16 / 1000) clamp_state)))) = (0, 0).
Proof.
  destruct clamp_move_boxes as [-> ->]. unfold ball_push.
  cbn [Vector2.x Vector2.y]. split.
  - apply (circle_rect_overlap_far 22 300 ball_r _ (-736) (-35));
      Rnum; closest_eval.
  - apply (circle_rect_overlap_far 22 300 ball_r _ (-205) (-35));
      Rnum; closest_eval.
Qed.

(** C4, as the code has it.  From the ball at (5, 300) with velocity
    (-100, 0), one iteration that crosses the left wall and touches no box
    ends with the centre at x = 22 and the x-velocity equal to
    100 * friction * bounceDamp: the friction factor is applied to the
    velocity before the wall check. *)
Theorem boundary_clamp (keys : Keys) (dt : R) (s : State) :
  0 <= dt ->
  ball_pos s = Vector2.mk 5 300 -> ball_vel s = Vector2.mk (-100) 0 ->
  ball_push (Vector2.mk 22 300) (box1 (fst (fst (move_boxes keys dt s)))) = (0, 0) ->
  ball_push (Vector2.mk 22 300) (box2 (fst (fst (move_boxes keys dt s)))) = (0, 0) ->
  Vector2.x (ball_pos (tick keys dt s)) = IZR BALL_RADIUS /\
  Vector2.x (ball_vel (tick keys dt s)) = 100 * BALL_FRICTION * BALL_BOUNCE_DAMP.
Proof.
  intros Hdt Hpos Hvel H1 H2.
  destruct (clamp_tick keys dt s Hdt Hpos Hvel H1 H2) as [-> ->].
  split; reflexivity.
Qed.

Lemma boundary_clamp_witness :
  Vector2.x (ball_pos (tick no_keys (16 / 1000) clamp_state)) = IZR BALL_RADIUS /\
  Vector2.x (ball_vel (tick no_keys (16 / 1000) clamp_state))
  = 100 * BALL_FRICTION * BALL_BOUNCE_DAMP.
Proof.
  apply (boundary_clamp no_keys (16 / 1000) clamp_state).
  - lra.
  - reflexivity.
  - reflexivity.
  - exact (proj1 clamp_pushes).
  - exact (proj2 clamp_pushes).
Defined.

(** C4 fails as stated: after the iteration the x-velocity is
    100 * 0.995 * 0.95 = 94.525, not 100 * 0.95 = 95. *)
Lemma boundary_clamp_velocity_has_friction :
  let s' := tick no_keys (16 / 1000) clamp_state in
  ~ (Vector2.x (ball_pos s') = 22 /\
     Vector2.x (ball_vel s') = 100 * BALL_BOUNCE_DAMP).
Proof.
  cbv zeta. intros [_ H].
  assert (Hdt : 0 <= 16 / 1000) by lra.
  destruct (clamp_tick no_keys (16 / 1000) clamp_state Hdt eq_refl eq_refl
              (proj1 clamp_pushes) (proj2 clamp_pushes)) as [_ Hv].
  rewrite Hv in H. cbn [Vector2.x] in H.
  unfold BALL_FRICTION, BALL_BOUNCE_DAMP in H. lra.
Qed.

(** * Further properties *)

(** ** The AABB resolver on overlapping rectangles *)

(** The four depths of a proper, colliding pair are positive. *)
Lemma depths_positive (mover static : Rect.t) :
  Rect.proper mover -> Rect.proper static ->
  Rect.colliderect mover static = true ->
  (0 < Rect.right mover - Rect.left static /\
   0 < Rect.right static - Rect.left mover /\
   0 < Rect.bottom mover - Rect.top static /\
   0 < Rect.bottom static - Rect.top mover)%Z.
Proof.
  intros Hm Hs E. apply (colliderect_proper mover static Hm Hs) in E. lia.
Qed.

(** The two outcomes of a call on a colliding pair. *)
Lemma resolve_cases (mover static : Rect.t) (vx vy : R) :
  Rect.colliderect mover static = true ->
  let mx := min_x_overlap mover static in
  let my := min_y_overlap mover static in
  (resolve_aabb_overlap mover static vx vy
   = (Rect.move mover (- mx) 0, ((- mx)%Z, 0%Z)) /\ (Z.abs mx <= Z.abs my)%Z) \/
  (resolve_aabb_overlap mover static vx vy
   = (Rect.move mover 0 (- my), (0%Z, (- my)%Z)) /\ (Z.abs my <= Z.abs mx)%Z).
Proof.
  intros E. cbv zeta. unfold resolve_aabb_overlap. rewrite E. cbn [negb].
  destruct (Z.ltb_spec (Z.abs (min_x_overlap mover static))
                       (Z.abs (min_y_overlap mover static))).
  - left. split; [reflexivity|lia].
  - destruct (Z.ltb_spec (Z.abs (min_y_overlap mover static))
                         (Z.abs (min_x_overlap mover static))).
    + right. split; [reflexivity|lia].
    + destruct (Rgeb (Rabs vx) (Rabs vy)).
      * left. split; [reflexivity|lia].
      * right. split; [reflexivity|lia].
Qed.

Lemma resolve_touching (mover static : Rect.t) (vx vy : R) :
  Rect.proper mover -> Rect.proper static ->
  Rect.colliderect mover static = true ->
  edge_touching (fst (resolve_aabb_overlap mover static vx vy)) static.
Proof.
  intros Hm Hs E.
  pose proof (depths_positive mover static Hm Hs E) as (D1 & D2 & D3 & D4).
  destruct (resolve_cases mover static vx vy E) as [[-> _]|[-> _]];
    cbn [fst]; unfold edge_touching; (split; [exact Hm|]); (split; [exact Hs|]).
  - unfold min_x_overlap, min_overlap.
    destruct (Z.ltb_spec (Rect.right mover - Rect.left static)
                         (Rect.right static - Rect.left mover));
      unfold Rect.move, Rect.left, Rect.right, Rect.top, Rect.bottom in *;
      cbn [Rect.x Rect.y Rect.w Rect.h]; lia.
  - unfold min_y_overlap, min_overlap.
    destruct (Z.ltb_spec (Rect.bottom mover - Rect.top static)
                         (Rect.bottom static - Rect.top mover));
      unfold Rect.move, Rect.left, Rect.right, Rect.top, Rect.bottom in *;
      cbn [Rect.x Rect.y Rect.w Rect.h]; lia.
Qed.

(** X1.  On proper rectangles that overlap, the resolver moves the mover
    exactly until it shares an edge with the static rectangle: afterwards the
    two no longer collide. *)
Theorem resolve_separates (mover static : Rect.t) (vx vy : R) :
  Rect.proper mover -> Rect.proper static ->
  Rect.colliderect mover static = true ->
  let mover' := fst (resolve_aabb_overlap mover static vx vy) in
  edge_touching mover' static /\ Rect.colliderect mover' static = false.
Proof.
  intros Hm Hs E. cbv zeta.
  pose proof (resolve_touching mover static vx vy Hm Hs E) as T.
  split; [exact T | exact (edge_touching_separate _ _ T)].
Qed.

Lemma resolve_separates_witness :
  Rect.colliderect (fst (resolve_aabb_overlap overlap_b1 overlap_b2 0 0)) overlap_b2
  = false.
Proof.
  refine (proj2 (resolve_separates overlap_b1 overlap_b2 0 0 _ _ _)).
  - split; reflexivity.
  - split; reflexivity.
  - reflexivity.
Defined.

(** X2.  On proper rectangles that overlap, the correction is along one axis
    only, and its magnitude is the smallest of the four overlap depths. *)
Theorem resolve_correction_minimal (mover static : Rect.t) (vx vy : R) :
  Rect.proper mover -> Rect.proper static ->
  Rect.colliderect mover static = true ->
  let '(dx, dy) := snd (resolve_aabb_overlap mover static vx vy) in
  (dx = 0 \/ dy = 0)%Z /\ (Z.abs dx + Z.abs dy = min_depth mover static)%Z.
Proof.
  intros Hm Hs E.
  pose proof (depths_positive mover static Hm Hs E) as (D1 & D2 & D3 & D4).
  pose proof (min_overlap_abs _ _ D1 D2) as Ax.
  pose proof (min_overlap_abs _ _ D3 D4) as Ay.
  fold (min_x_overlap mover static) in Ax. fold (min_y_overlap mover static) in Ay.
  unfold min_depth.
  destruct (resolve_cases mover static vx vy E) as [[-> H]|[-> H]]; cbn [snd];
    (split; [lia|]); lia.
Qed.

Lemma resolve_correction_minimal_witness :
  let '(dx, dy) := snd (resolve_aabb_overlap overlap_b1 overlap_b2 0 0) in
  (dx = 0 \/ dy = 0)%Z /\ (Z.abs dx + Z.abs dy = 8)%Z.
Proof.
  refine (resolve_correction_minimal overlap_b1 overlap_b2 0 0 _ _ _).
  - split; reflexivity.
  - split; reflexivity.
  - reflexivity.
Defined.

(** X3.  Resolving is idempotent on proper rectangles, overlapping or not: a
    second call on the result returns (0, 0) and changes nothing. *)
Theorem resolve_idempotent (mover static : Rect.t) (vx vy vx' vy' : R) :
  Rect.proper mover -> Rect.proper static ->
  let mover' := fst (resolve_aabb_overlap mover static vx vy) in
  resolve_aabb_overlap mover' static vx' vy' = (mover', (0, 0)%Z).
Proof.
  intros Hm Hs. cbv zeta. apply resolve_separate.
  destruct (Rect.colliderect mover static) eqn:E.
  - apply edge_touching_separate. apply resolve_touching; assumption.
  - rewrite (resolve_separate mover static vx vy E). exact E.
Qed.

Lemma resolve_idempotent_witness :
  resolve_aabb_overlap (fst (resolve_aabb_overlap overlap_b1 overlap_b2 0 0))
                       overlap_b2 1 0
  = (Rect.mk 92 335 50 50, (0, 0)%Z).
Proof.
  refine (resolve_idempotent overlap_b1 overlap_b2 0 0 1 0 _ _).
  - split; reflexivity.
  - split; reflexivity.
Defined.

(** X4.  The intended motion matters only on a tie: when the rectangles do
    not collide, or the two axis overlaps differ in magnitude, the result is
    the same for every intended motion. *)
Theorem resolve_ignores_motion_off_tie (mover static : Rect.t) (vx vy vx' vy' : R) :
  Rect.colliderect mover static = false \/
  Z.abs (min_x_overlap mover static) <> Z.abs (min_y_overlap mover static) ->
  resolve_aabb_overlap mover static vx vy = resolve_aabb_overlap mover static vx' vy'.
Proof.
  intros [E|N].
  - rewrite !resolve_separate by exact E. reflexivity.
  - unfold resolve_aabb_overlap. destruct (Rect.colliderect mover static);
      [|reflexivity]. cbn [negb].
    destruct (Z.ltb_spec (Z.abs (min_x_overlap mover static))
                         (Z.abs (min_y_overlap mover static))); [reflexivity|].
    destruct (Z.ltb_spec (Z.abs (min_y_overlap mover static))
                         (Z.abs (min_x_overlap mover static))); [reflexivity|].
    lia.
Qed.

Lemma resolve_ignores_motion_off_tie_witness :
  resolve_aabb_overlap overlap_b1 overlap_b2 0 1
  = resolve_aabb_overlap overlap_b1 overlap_b2 1 0.
Proof.
  apply (resolve_ignores_motion_off_tie overlap_b1 overlap_b2 0 1 1 0).
  right. vm_compute. discriminate.
Defined.

(** ** The box-box resolution of [main] *)

Lemma colliderect_sym (a b : Rect.t) :
  Rect.proper a -> Rect.proper b ->
  Rect.colliderect a b = true -> Rect.colliderect b a = true.
Proof.
  intros Ha Hb E. apply (colliderect_proper b a Hb Ha).
  apply (colliderect_proper a b Ha Hb) in E. lia.
Qed.

Lemma correction_is_min_depth (b other : Rect.t) (vx vy : R) :
  Rect.proper b -> Rect.proper other -> Rect.colliderect b other = true ->
  correction b other vx vy = min_depth b other.
Proof.
  intros Hb Ho E.
  pose proof (depths_positive b other Hb Ho E) as (D1 & D2 & D3 & D4).
  pose proof (min_overlap_abs _ _ D1 D2) as Ax.
  pose proof (min_overlap_abs _ _ D3 D4) as Ay.
  fold (min_x_overlap b other) in Ax. fold (min_y_overlap b other) in Ay.
  unfold correction, min_depth.
  destruct (resolve_cases b other vx vy E) as [[-> H]|[-> H]];
    cbn [fst Rect.move Rect.x Rect.y]; lia.
Qed.

(** X5.  The two corrections that [main] measures on overlapping boxes are
    always equal, whatever the two intended motions: each is the smallest
    overlap depth of the pair. *)
Theorem corrections_equal (b1 b2 : Rect.t) (dx1 dy1 dx2 dy2 : R) :
  Rect.proper b1 -> Rect.proper b2 -> Rect.colliderect b1 b2 = true ->
  correction b1 b2 dx1 dy1 = correction b2 b1 dx2 dy2 /\
  correction b1 b2 dx1 dy1 = min_depth b1 b2.
Proof.
  intros H1 H2 E.
  rewrite (correction_is_min_depth b1 b2 dx1 dy1 H1 H2 E).
  rewrite (correction_is_min_depth b2 b1 dx2 dy2 H2 H1 (colliderect_sym _ _ H1 H2 E)).
  split; [|reflexivity]. unfold min_depth. lia.
Qed.

Lemma corrections_equal_witness :
  correction overlap_b1 overlap_b2 1 0 = correction overlap_b2 overlap_b1 0 1 /\
  correction overlap_b1 overlap_b2 1 0 = 8%Z.
Proof.
  refine (corrections_equal overlap_b1 overlap_b2 1 0 0 1 _ _ _).
  - split; reflexivity.
  - split; reflexivity.
  - reflexivity.
Defined.

(** What [main] writes back for a proper, colliding pair: the two resolved
    copies themselves. *)
Lemma resolve_boxes_copies (b1 b2 : Rect.t) (dx1 dy1 dx2 dy2 : R) :
  Rect.proper b1 -> Rect.proper b2 -> Rect.colliderect b1 b2 = true ->
  resolve_boxes b1 b2 dx1 dy1 dx2 dy2
  = (fst (resolve_aabb_overlap b1 b2 dx1 dy1),
     fst (resolve_aabb_overlap b2 b1 dx2 dy2)).
Proof.
  intros H1 H2 E.
  pose proof (colliderect_sym _ _ H1 H2 E) as E'.
  pose proof (correction_positive b1 b2 dx1 dy1 H1 H2 E).
  pose proof (correction_positive b2 b1 dx2 dy2 H2 H1 E').
  rewrite resolve_boxes_unfold by (apply Z.eqb_neq; lia).
  destruct (resolve_cases b1 b2 dx1 dy1 E) as [[-> _]|[-> _]];
    destruct (resolve_cases b2 b1 dx2 dy2 E') as [[-> _]|[-> _]];
    reflexivity.
Qed.

(** X6.  When two proper boxes overlap and their centres differ on both
    axes, the box-box resolution of [main] leaves them without overlap. *)
Theorem resolve_boxes_separates (b1 b2 : Rect.t) (dx1 dy1 dx2 dy2 : R) :
  Rect.proper b1 -> Rect.proper b2 -> Rect.colliderect b1 b2 = true ->
  centres_apart b1 b2 ->
  let rb := resolve_boxes b1 b2 dx1 dy1 dx2 dy2 in
  Rect.colliderect (fst rb) (snd rb) = false.
Proof.
  intros H1 H2 E [Cx Cy]. cbv zeta.
  pose proof (colliderect_sym _ _ H1 H2 E) as E'.
  pose proof (depths_positive b1 b2 H1 H2 E) as (D1 & D2 & D3 & D4).
  rewrite (resolve_boxes_copies b1 b2 dx1 dy1 dx2 dy2 H1 H2 E). cbn [fst snd].
  destruct (Rect.colliderect (fst (resolve_aabb_overlap b1 b2 dx1 dy1))
                             (fst (resolve_aabb_overlap b2 b1 dx2 dy2))) eqn:F;
    [exfalso|reflexivity].
  revert F.
  destruct (resolve_cases b1 b2 dx1 dy1 E) as [[-> _]|[-> _]];
    destruct (resolve_cases b2 b1 dx2 dy2 E') as [[-> _]|[-> _]];
    cbn [fst]; intros F;
    apply colliderect_proper in F; try (destruct H1, H2; split; assumption);
    unfold min_x_overlap, min_y_overlap, min_overlap in F;
    repeat match type of F with
      | context [(?a <? ?b)%Z] => destruct (Z.ltb_spec a b)
      end;
    unfold Rect.move, Rect.left, Rect.right, Rect.top, Rect.bottom in *;
    cbn [Rect.x Rect.y Rect.w Rect.h] in *; lia.
Qed.

Lemma resolve_boxes_separates_witness :
  Rect.colliderect
    (fst (resolve_boxes overlap_b1 (Rect.mk 142 340 50 50) 0 0 0 0))
    (snd (resolve_boxes overlap_b1 (Rect.mk 142 340 50 50) 0 0 0 0)) = false.
Proof.
  refine (resolve_boxes_separates overlap_b1 (Rect.mk 142 340 50 50) 0 0 0 0 _ _ _ _).
  - split; reflexivity.
  - split; reflexivity.
  - reflexivity.
  - split; vm_compute; discriminate.
Defined.

Lemma colliderect_refl (b : Rect.t) : Rect.proper b -> Rect.colliderect b b = true.
Proof.
  intros H. apply (colliderect_proper b b H H). destruct H.
  unfold Rect.left, Rect.right, Rect.top, Rect.bottom. lia.
Qed.

(** X7.  Two coincident proper boxes whose intended motions give the same
    tie-break are moved by the same correction: the box-box resolution of
    [main] leaves them coincident, still overlapping. *)
Theorem resolve_boxes_coincident (b : Rect.t) (dx1 dy1 dx2 dy2 : R) :
  Rect.proper b ->
  Rgeb (Rabs dx1) (Rabs dy1) = Rgeb (Rabs dx2) (Rabs dy2) ->
  let rb := resolve_boxes b b dx1 dy1 dx2 dy2 in
  fst rb = snd rb /\ fst rb <> b /\ Rect.colliderect (fst rb) (snd rb) = true.
Proof.
  intros H Hbias. cbv zeta.
  pose proof (colliderect_refl b H) as E.
  rewrite (resolve_boxes_copies b b dx1 dy1 dx2 dy2 H H E). cbn [fst snd].
  assert (Hsame : resolve_aabb_overlap b b dx1 dy1 = resolve_aabb_overlap b b dx2 dy2).
  { unfold resolve_aabb_overlap. rewrite Hbias. reflexivity. }
  rewrite <- Hsame. split; [reflexivity|]. split.
  - pose proof (correction_positive b b dx1 dy1 H H E) as P. unfold correction in P.
    intros Heq. rewrite Heq in P. lia.
  - apply colliderect_refl.
    destruct (resolve_cases b b dx1 dy1 E) as [[-> _]|[-> _]]; exact H.
Qed.

Lemma resolve_boxes_coincident_witness :
  resolve_boxes overlap_b1 overlap_b1 0 0 0 0
  = (Rect.mk 150 335 50 50, Rect.mk 150 335 50 50) /\
  Rect.colliderect (fst (resolve_boxes overlap_b1 overlap_b1 0 0 0 0))
                   (snd (resolve_boxes overlap_b1 overlap_b1 0 0 0 0)) = true.
Proof.
  assert (Hb : Rgeb (Rabs 0) (Rabs 0) = Rgeb (Rabs 0) (Rabs 0)) by reflexivity.
  assert (Hp : Rect.proper overlap_b1) by (split; reflexivity).
  pose proof (resolve_boxes_coincident overlap_b1 0 0 0 0 Hp Hb) as (_ & _ & C).
  split; [|exact C].
  unfold resolve_boxes, resolve_aabb_overlap, overlap_b1.
  cbn [Rect.colliderect negb fst]. 
  rewrite (proj2 (Rgeb_true (Rabs 0) (Rabs 0))) by lra. reflexivity.
Defined.

(** ** The circle/rectangle resolver off the rectangle *)

Lemma center_distance_facts (cx cy : R) (rect : Rect.t) :
  Rect.proper rect -> ~ center_in_rect cx cy rect ->
  let dx := fst (center_offset cx cy rect) in
  let dy := snd (center_offset cx cy rect) in
  let dist := center_distance cx cy rect in
  0 < dist /\ dist * dist = dx * dx + dy * dy.
Proof.
  intros Hp Hout. cbv zeta. destruct (proper_edges rect Hp) as [Hx Hy].
  pose proof (offset_nonzero cx cy rect Hx Hy Hout) as Hpos.
  unfold center_distance, center_offset, hypot. cbn [fst snd]. split.
  - apply sqrt_lt_R0. exact Hpos.
  - apply sqrt_sqrt. lra.
Qed.

(** The push-out of a circle whose centre is off the rectangle and within
    reach of it. *)
Lemma circle_rect_overlap_reach (cx cy r : R) (rect : Rect.t) :
  Rect.proper rect -> ~ center_in_rect cx cy rect ->
  center_distance cx cy rect <= r ->
  circle_rect_overlap cx cy r rect
  = vscale ((r - center_distance cx cy rect) / center_distance cx cy rect)
           (center_offset cx cy rect).
Proof.
  intros Hp Hout Hr.
  destruct (center_distance_facts cx cy rect Hp Hout) as [Hd Hsq].
  set (dist := center_distance cx cy rect) in *.
  rewrite (circle_rect_overlap_regular cx cy r rect _ _ dist eq_refl eq_refl Hd Hsq Hr).
  unfold vscale, center_offset. cbn [fst snd]. f_equal; field; lra.
Qed.

(** X8.  For a circle whose centre is off a proper rectangle and at most [r]
    away from it, the push-out is the offset from the closest point of the
    rectangle scaled by a non-negative factor, and its length is the
    penetration depth [r - distance]. *)
Theorem push_is_penetration_depth (cx cy r : R) (rect : Rect.t) :
  Rect.proper rect -> ~ center_in_rect cx cy rect ->
  center_distance cx cy rect <= r ->
  let p := circle_rect_overlap cx cy r rect in
  let dist := center_distance cx cy rect in
  p = vscale ((r - dist) / dist) (center_offset cx cy rect) /\
  0 <= (r - dist) / dist /\
  hypot (fst p) (snd p) = r - dist.
Proof.
  intros Hp Hout Hr. cbv zeta.
  destruct (center_distance_facts cx cy rect Hp Hout) as [Hd Hsq].
  rewrite (circle_rect_overlap_reach cx cy r rect Hp Hout Hr).
  set (dist := center_distance cx cy rect) in *.
  assert (Hk : 0 <= (r - dist) / dist).
  { unfold Rdiv. apply Rmult_le_pos; [lra|]. left. apply Rinv_0_lt_compat. exact Hd. }
  split; [reflexivity|]. split; [exact Hk|].
  unfold vscale. cbn [fst snd].
  rewrite (Rmult_comm _ (fst _)), (Rmult_comm _ (snd _)).
  rewrite hypot_scale by exact Hk. fold (center_distance cx cy rect). fold dist.
  field. lra.
Qed.

Lemma push_is_penetration_depth_witness :
  hypot (fst (circle_rect_overlap 172 125 22 (Rect.mk 186 100 50 50)))
        (snd (circle_rect_overlap 172 125 22 (Rect.mk 186 100 50 50)))
  = 22 - center_distance 172 125 (Rect.mk 186 100 50 50).
Proof.
  assert (Hp : Rect.proper (Rect.mk 186 100 50 50)) by (split; reflexivity).
  assert (Hout : ~ center_in_rect 172 125 (Rect.mk 186 100 50 50)).
  { unfold center_in_rect. IZR_eval. lra. }
  refine (proj2 (proj2 (push_is_penetration_depth 172 125 22 (Rect.mk 186 100 50 50)
                          Hp Hout _))).
  unfold center_distance, center_offset. cbn [fst snd].
  replace (172 - closest_x 172 (Rect.mk 186 100 50 50)) with (-14) by closest_eval.
  replace (125 - closest_y 125 (Rect.mk 186 100 50 50)) with 0 by closest_eval.
  rewrite (hypot_eval (-14) 0 14) by lra. lra.
Defined.

(** X9.  For a circle of radius [r >= 0] whose centre is off a proper
    rectangle, the push-out is (0, 0) exactly when the centre is at least
    [r] away from the rectangle: touching is not overlap. *)
Theorem push_zero_iff_clear (cx cy r : R) (rect : Rect.t) :
  Rect.proper rect -> ~ center_in_rect cx cy rect -> 0 <= r ->
  (circle_rect_overlap cx cy r rect = (0, 0) <-> r <= center_distance cx cy rect).
Proof.
  intros Hp Hout Hr0.
  destruct (center_distance_facts cx cy rect Hp Hout) as [Hd Hsq].
  destruct (Rle_dec r (center_distance cx cy rect)) as [Hle|Hgt].
  - split; [intros _; exact Hle|intros _].
    destruct (Req_dec_T r (center_distance cx cy rect)) as [Heq|Hne].
    + rewrite (circle_rect_overlap_reach cx cy r rect Hp Hout) by lra.
      rewrite <- Heq. unfold vscale. f_equal; unfold Rdiv; ring.
    + apply (circle_rect_overlap_far cx cy r rect _ _ eq_refl eq_refl).
      unfold center_offset in Hsq. cbn [fst snd] in Hsq. rewrite <- Hsq. nra.
  - split; [|intros H; contradiction]. intros Hz. exfalso.
    rewrite (circle_rect_overlap_reach cx cy r rect Hp Hout) in Hz by lra.
    set (dist := center_distance cx cy rect) in *.
    assert (Hk : 0 < (r - dist) / dist).
    { unfold Rdiv. apply Rmult_lt_0_compat; [lra|]. apply Rinv_0_lt_compat. exact Hd. }
    unfold vscale in Hz. injection Hz as H1 H2.
    unfold center_offset in Hsq. cbn [fst snd] in Hsq.
    assert (Hx : cx - closest_x cx rect = 0)
      by (destruct (Rmult_integral _ _ H1); lra).
    assert (Hy : cy - closest_y cy rect = 0)
      by (destruct (Rmult_integral _ _ H2); lra).
    rewrite Hx, Hy in Hsq. nra.
Qed.

Lemma push_zero_iff_clear_witness :
  circle_rect_overlap 170 125 22 (Rect.mk 98 100 50 50) = (0, 0).
Proof.
  assert (Hp : Rect.proper (Rect.mk 98 100 50 50)) by (split; reflexivity).
  assert (Hout : ~ center_in_rect 170 125 (Rect.mk 98 100 50 50)).
  { unfold center_in_rect. IZR_eval. lra. }
  assert (Hr : 0 <= 22) by lra.
  apply (proj2 (push_zero_iff_clear 170 125 22 (Rect.mk 98 100 50 50) Hp Hout Hr)).
  unfold center_distance, center_offset. cbn [fst snd].
  replace (170 - closest_x 170 (Rect.mk 98 100 50 50)) with 22 by closest_eval.
  replace (125 - closest_y 125 (Rect.mk 98 100 50 50)) with 0 by closest_eval.
  rewrite (hypot_eval 22 0 22) by lra. lra.
Defined.

(** ** The circle/rectangle resolver at a corner *)

Lemma py_min_by_keep {A : Type} (key : A -> R) (x0 x : A) (xs : list A) :
  key x0 <= key x -> py_min_by key x0 (x :: xs) = py_min_by key x0 xs.
Proof.
  intros H. cbn [py_min_by]. rewrite (proj2 (Rltb_false _ _) H). reflexivity.
Qed.

Lemma py_min_by_take {A : Type} (key : A -> R) (x0 x : A) (xs : list A) :
  key x < key x0 -> py_min_by key x0 (x :: xs) = py_min_by key x xs.
Proof.
  intros H. cbn [py_min_by]. rewrite (proj2 (Rltb_true _ _) H). reflexivity.
Qed.

Lemma push_key_x (a : R) : push_key (a, 0) = Rabs a.
Proof. unfold push_key. cbn [fst snd]. rewrite Rabs_R0. ring. Qed.

Lemma push_key_y (a : R) : push_key (0, a) = Rabs a.
Proof. unfold push_key. cbn [fst snd]. rewrite Rabs_R0. ring. Qed.

(** The four candidates with the centre on the left edge line: the first one,
    of key [r], is kept. *)
Lemma corner_options_left (r W td bd : R) :
  0 < r -> 2 * r <= W -> r <= Rabs (r - td) -> r <= Rabs (r - bd) ->
  py_min_by push_key (- (r - 0), 0) [(r - W, 0); (0, - (r - td)); (0, r - bd)]
  = (- r, 0).
Proof.
  intros Hr HW Ht Hb.
  assert (K0 : push_key (- (r - 0), 0) = r).
  { rewrite push_key_x. rewrite Rabs_left by lra. ring. }
  rewrite py_min_by_keep
    by (rewrite K0, push_key_x; rewrite Rabs_left1 by lra; lra).
  rewrite py_min_by_keep
    by (rewrite K0, push_key_y, Rabs_Ropp; exact Ht).
  rewrite py_min_by_keep by (rewrite K0, push_key_y; exact Hb).
  cbn [py_min_by]. f_equal. ring.
Qed.

(** The same on the right edge line: the second candidate is taken unless it
    ties with the first, and both are then the same push. *)
Lemma corner_options_right (r W td bd : R) :
  0 < r -> 2 * r <= W -> r <= Rabs (r - td) -> r <= Rabs (r - bd) ->
  py_min_by push_key (- (r - W), 0) [(r - 0, 0); (0, - (r - td)); (0, r - bd)]
  = (r, 0).
Proof.
  intros Hr HW Ht Hb.
  assert (K0 : push_key (- (r - W), 0) = W - r).
  { rewrite push_key_x. rewrite Rabs_pos_eq by lra. ring. }
  assert (K1 : push_key (r - 0, 0) = r).
  { rewrite push_key_x. rewrite Rabs_pos_eq by lra. ring. }
  destruct (Rlt_dec r (W - r)) as [Hlt|Hge].
  - rewrite py_min_by_take by (rewrite K0, K1; exact Hlt).
    rewrite py_min_by_keep by (rewrite K1, push_key_y, Rabs_Ropp; exact Ht).
    rewrite py_min_by_keep by (rewrite K1, push_key_y; exact Hb).
    cbn [py_min_by]. f_equal. ring.
  - rewrite py_min_by_keep by (rewrite K0, K1; lra).
    rewrite py_min_by_keep by (rewrite K0, push_key_y, Rabs_Ropp; lra).
    rewrite py_min_by_keep by (rewrite K0, push_key_y; lra).
    cbn [py_min_by]. f_equal. lra.
Qed.

Lemma corner_push_value (cx cy r : R) (rect : Rect.t) :
  Rect.proper rect -> 0 < r ->
  2 * r <= IZR (Rect.w rect) -> 2 * r <= IZR (Rect.h rect) ->
  cy = IZR (Rect.top rect) \/ cy = IZR (Rect.bottom rect) ->
  (cx = IZR (Rect.left rect) -> circle_rect_overlap cx cy r rect = (- r, 0)) /\
  (cx = IZR (Rect.right rect) -> circle_rect_overlap cx cy r rect = (r, 0)).
Proof.
  intros Hp Hr Hw Hh Hy.
  assert (Ein : cx = IZR (Rect.left rect) \/ cx = IZR (Rect.right rect) ->
                center_in_rect cx cy rect).
  { intros Hx. destruct (proper_edges rect Hp). unfold center_in_rect.
    destruct Hx, Hy; subst; lra. }
  assert (ER : IZR (Rect.right rect) = IZR (Rect.left rect) + IZR (Rect.w rect))
    by (unfold Rect.right, Rect.left; apply plus_IZR).
  assert (EB : IZR (Rect.bottom rect) = IZR (Rect.top rect) + IZR (Rect.h rect))
    by (unfold Rect.bottom, Rect.top; apply plus_IZR).
  set (L := IZR (Rect.left rect)) in *. set (T := IZR (Rect.top rect)) in *.
  set (W := IZR (Rect.w rect)) in *. set (H := IZR (Rect.h rect)) in *.
  assert (Hvert : r <= Rabs (r - Rabs (cy - T)) /\ r <= Rabs (r - Rabs (T + H - cy))).
  { destruct Hy as [-> | ->].
    - replace (T - T) with 0 by ring. replace (T + H - T) with H by ring.
      rewrite Rabs_R0, (Rabs_pos_eq H) by lra.
      rewrite (Rabs_pos_eq (r - 0)) by lra. rewrite (Rabs_left1 (r - H)) by lra. lra.
    - rewrite EB. replace (T + H - T) with H by ring.
      replace (T + H - (T + H)) with 0 by ring.
      rewrite Rabs_R0, (Rabs_pos_eq H) by lra.
      rewrite (Rabs_pos_eq (r - 0)) by lra. rewrite (Rabs_left1 (r - H)) by lra. lra. }
  destruct Hvert as [Ht Hb].
  split; intros Hx.
  - rewrite (circle_rect_overlap_inside cx cy r rect) by (apply Ein; left; exact Hx).
    unfold push_options. fold L T. rewrite ER, EB. subst cx.
    replace (L - L) with 0 by ring. replace (L + W - L) with W by ring.
    rewrite Rabs_R0, (Rabs_pos_eq W) by lra.
    apply corner_options_left; assumption.
  - rewrite (circle_rect_overlap_inside cx cy r rect) by (apply Ein; right; exact Hx).
    unfold push_options. fold L T. rewrite ER, EB. subst cx. rewrite ER.
    replace (L + W - L) with W by ring. replace (L + W - (L + W)) with 0 by ring.
    rewrite Rabs_R0, (Rabs_pos_eq W) by lra.
    apply corner_options_right; assumption.
Qed.

(** X10.  With the circle's centre exactly on a corner of a proper rectangle
    at least [2 r] wide and high ([main]: 50 against 2 * 22), the push-out
    is horizontal, of length [r], away from the rectangle; after it the
    circle touches the corner and the recomputed push-out is (0, 0). *)
Theorem corner_push (cx cy r : R) (rect : Rect.t) :
  Rect.proper rect -> 0 < r ->
  2 * r <= IZR (Rect.w rect) -> 2 * r <= IZR (Rect.h rect) ->
  cx = IZR (Rect.left rect) \/ cx = IZR (Rect.right rect) ->
  cy = IZR (Rect.top rect) \/ cy = IZR (Rect.bottom rect) ->
  let p := circle_rect_overlap cx cy r rect in
  (cx = IZR (Rect.left rect) -> p = (- r, 0)) /\
  (cx = IZR (Rect.right rect) -> p = (r, 0)) /\
  circle_rect_overlap (cx + fst p) (cy + snd p) r rect = (0, 0).
Proof.
  intros Hp Hr Hw Hh Hx Hy. cbv zeta.
  destruct (corner_push_value cx cy r rect Hp Hr Hw Hh Hy) as [VL VR].
  split; [exact VL|]. split; [exact VR|].
  destruct (proper_edges rect Hp) as [Ex Ey].
  assert (Hcy : IZR (Rect.top rect) <= cy <= IZR (Rect.bottom rect))
    by (destruct Hy; subst; lra).
  destruct Hx as [Hx|Hx].
  - rewrite (VL Hx). cbn [fst snd]. rewrite Rplus_0_r.
    rewrite (circle_rect_overlap_regular (cx + - r) cy r rect (- r) 0 r).
    + f_equal; unfold Rdiv; ring.
    + unfold closest_x. rewrite clamp_low by lra. lra.
    + unfold closest_y. rewrite closest_inside by exact Hcy. ring.
    + exact Hr.
    + ring.
    + lra.
  - rewrite (VR Hx). cbn [fst snd]. rewrite Rplus_0_r.
    rewrite (circle_rect_overlap_regular (cx + r) cy r rect r 0 r).
    + f_equal; unfold Rdiv; ring.
    + unfold closest_x. rewrite clamp_high by lra. lra.
    + unfold closest_y. rewrite closest_inside by exact Hcy. ring.
    + exact Hr.
    + ring.
    + lra.
Qed.

Lemma corner_push_witness :
  circle_rect_overlap 150 150 22 (Rect.mk 100 100 50 50) = (22, 0).
Proof.
  assert (Hp : Rect.proper (Rect.mk 100 100 50 50)) by (split; reflexivity).
  apply (corner_push 150 150 22 (Rect.mk 100 100 50 50) Hp);
    try (right; IZR_eval; reflexivity); try (IZR_eval; lra).
Defined.

(** ** The velocity reflector about a unit normal *)

(** X11.  About a unit normal the reflector reverses the component of the
    velocity along the normal and keeps the component across it, both scaled
    by the damping factor. *)
Theorem reflect_components (vx vy nx ny damp : R) :
  nx * nx + ny * ny = 1 ->
  let r := reflect_velocity_over_normal vx vy nx ny damp in
  vdot r (nx, ny) = - damp * vdot (vx, vy) (nx, ny) /\
  vdot r (- ny, nx) = damp * vdot (vx, vy) (- ny, nx).
Proof.
  intros Hn. cbv zeta. unfold reflect_velocity_over_normal, vdot. cbn [fst snd].
  split.
  - replace ((vx - 2 * (vx * nx + vy * ny) * nx) * damp * nx
             + (vy - 2 * (vx * nx + vy * ny) * ny) * damp * ny)
      with (damp * (vx * nx + vy * ny) * (1 - 2 * (nx * nx + ny * ny))) by ring.
    rewrite Hn. ring.
  - ring.
Qed.

Lemma reflect_components_witness :
  vdot (reflect_velocity_over_normal 3 4 0 (-1) (1 / 2)) (0, -1)
  = - (1 / 2) * vdot (3, 4) (0, -1).
Proof.
  refine (proj1 (reflect_components 3 4 0 (-1) (1 / 2) _)). ring.
Defined.

(** X12.  Reflecting twice about the same unit normal gives the velocity
    back, scaled by the product of the two damping factors; with damping 1
    the reflector is an involution. *)
Theorem reflect_twice (vx vy nx ny d1 d2 : R) :
  nx * nx + ny * ny = 1 ->
  let r := reflect_velocity_over_normal vx vy nx ny d1 in
  reflect_velocity_over_normal (fst r) (snd r) nx ny d2
  = (d1 * d2 * vx, d1 * d2 * vy).
Proof.
  intros Hn. cbv zeta. unfold reflect_velocity_over_normal. cbn [fst snd].
  set (d := vx * nx + vy * ny).
  assert (Hd : (vx - 2 * d * nx) * d1 * nx + (vy - 2 * d * ny) * d1 * ny = - d1 * d).
  { replace ((vx - 2 * d * nx) * d1 * nx + (vy - 2 * d * ny) * d1 * ny)
      with (d1 * (vx * nx + vy * ny) - 2 * d1 * d * (nx * nx + ny * ny)) by ring.
    rewrite Hn. unfold d. ring. }
  rewrite Hd. f_equal; ring.
Qed.

Lemma reflect_twice_witness :
  reflect_velocity_over_normal
    (fst (reflect_velocity_over_normal 3 4 0 (-1) 1))
    (snd (reflect_velocity_over_normal 3 4 0 (-1) 1)) 0 (-1) 1
  = (1 * 1 * 3, 1 * 1 * 4).
Proof.
  refine (reflect_twice 3 4 0 (-1) 1 1 _). ring.
Defined.

(** X13.  About a unit normal and with a damping factor [d >= 0] the
    reflector multiplies the speed by [d]: the speed drops for [d < 1] unless
    it is zero, and is kept for [d = 1]. *)
Theorem reflect_scales_speed (vx vy nx ny damp : R) :
  nx * nx + ny * ny = 1 -> 0 <= damp ->
  let r := reflect_velocity_over_normal vx vy nx ny damp in
  hypot (fst r) (snd r) = damp * hypot vx vy /\
  (damp < 1 -> (vx <> 0 \/ vy <> 0) -> hypot (fst r) (snd r) < hypot vx vy) /\
  (damp = 1 -> hypot (fst r) (snd r) = hypot vx vy).
Proof.
  intros Hn Hd. cbv zeta.
  pose proof (reflect_speed vx vy nx ny damp Hn Hd) as Hs. cbv zeta in Hs.
  rewrite Hs. split; [reflexivity|]. split.
  - intros Hlt Hnz. pose proof (hypot_pos vx vy Hnz). nra.
  - intros ->. ring.
Qed.

Lemma reflect_scales_speed_witness :
  hypot (fst (reflect_velocity_over_normal 3 4 1 0 (1 / 2)))
        (snd (reflect_velocity_over_normal 3 4 1 0 (1 / 2)))
  = 1 / 2 * hypot 3 4.
Proof.
  refine (proj1 (reflect_scales_speed 3 4 1 0 (1 / 2) _ _)); [ring|lra].
Defined.

(** ** The wall checks as a whole *)

Ltac wall_cases :=
  unfold ball_walls, wall_left, wall_right, wall_top, wall_bottom, Rgtb;
  cbn [fst snd Vector2.x Vector2.y];
  repeat match goal with
    | |- context [Rltb ?a ?b] =>
        let E := fresh "E" in
        destruct (Rltb a b) eqn:E;
        [apply Rltb_true in E | apply Rltb_false in E];
        cbn [fst snd Vector2.x Vector2.y]
    end.

(** X14.  Whatever the ball's position and velocity, after the four wall
    checks the ball lies inside the window: its centre is at least one radius
    away from every wall. *)
Theorem ball_walls_in_arena (pv : Vector2.t * Vector2.t) :
  ball_in_arena (fst (ball_walls pv)).
Proof.
  destruct pv as [[x y] [vx vy]]. unfold ball_in_arena.
  wall_cases; unfold ball_r, BALL_RADIUS, WIDTH, HEIGHT in *; lra.
Qed.

Lemma damp_abs (a : R) : Rabs (- a * BALL_BOUNCE_DAMP) <= Rabs a.
Proof.
  unfold BALL_BOUNCE_DAMP, Rabs.
  destruct (Rcase_abs (- a * (95 / 100))); destruct (Rcase_abs a); lra.
Qed.

Lemma damp_abs_twice (a : R) :
  Rabs (- (- a * BALL_BOUNCE_DAMP) * BALL_BOUNCE_DAMP) <= Rabs a.
Proof.
  eapply Rle_trans; [apply damp_abs|apply damp_abs].
Qed.

Lemma hypot_abs_mono (a b c d : R) :
  Rabs a <= Rabs c -> Rabs b <= Rabs d -> hypot a b <= hypot c d.
Proof.
  intros H1 H2. apply hypot_mono.
  apply Rsqr_le_abs_1 in H1. apply Rsqr_le_abs_1 in H2. unfold Rsqr in *. lra.
Qed.

(** X15.  The four wall checks together never increase the magnitude of
    either velocity component, hence never the ball's speed. *)
Theorem ball_walls_speed (pv : Vector2.t * Vector2.t) :
  let v := snd pv in
  let v' := snd (ball_walls pv) in
  Rabs (Vector2.x v') <= Rabs (Vector2.x v) /\
  Rabs (Vector2.y v') <= Rabs (Vector2.y v) /\
  Vector2.length v' <= Vector2.length v.
Proof.
  destruct pv as [[x y] [vx vy]]. cbv zeta.
  assert (H : Rabs (Vector2.x (snd (ball_walls (Vector2.mk x y, Vector2.mk vx vy))))
              <= Rabs vx /\
              Rabs (Vector2.y (snd (ball_walls (Vector2.mk x y, Vector2.mk vx vy))))
              <= Rabs vy).
  { wall_cases; split;
      first [ apply Rle_refl | apply damp_abs | apply damp_abs_twice ]. }
  destruct H as [Hx Hy]. cbn [snd Vector2.x Vector2.y].
  split; [exact Hx|]. split; [exact Hy|].
  unfold Vector2.length. apply hypot_abs_mono; assumption.
Qed.

(** ** Free flight *)

(** X16.  In an iteration where the moved ball stays inside the window and
    touches neither box, the ball advances by [velocity * dt] with the
    velocity it had before the iteration, and its velocity is multiplied by
    the friction factor: the speed shrinks by exactly [BALL_FRICTION]. *)
Theorem tick_free_flight (keys : Keys) (dt : R) (s : State) :
  let p' := Vector2.mk (Vector2.x (ball_pos s) + Vector2.x (ball_vel s) * dt)
                       (Vector2.y (ball_pos s) + Vector2.y (ball_vel s) * dt) in
  let s' := tick keys dt s in
  ball_in_arena p' ->
  ball_push p' (box1 s') = (0, 0) -> ball_push p' (box2 s') = (0, 0) ->
  ball_pos s' = p' /\
  ball_vel s' = Vector2.mk (Vector2.x (ball_vel s) * BALL_FRICTION)
                           (Vector2.y (ball_vel s) * BALL_FRICTION) /\
  Vector2.length (ball_vel s') = BALL_FRICTION * Vector2.length (ball_vel s).
Proof.
  cbv zeta. intros [[Hx1 Hx2] [Hy1 Hy2]].
  rewrite tick_ball. cbn [ball_pos ball_vel box1 box2].
  unfold ball_after_box1, ball_before_boxes.
  destruct (move_boxes_ball keys dt s) as [Ep Ev].
  destruct (move_boxes keys dt s) as [[s1 [dx1 dy1]] [dx2 dy2]].
  cbn [fst snd] in *. intros H1 H2. rewrite Ep, Ev.
  assert (W : ball_walls (ball_physics (ball_pos s) (ball_vel s) dt)
              = (Vector2.mk (Vector2.x (ball_pos s) + Vector2.x (ball_vel s) * dt)
                            (Vector2.y (ball_pos s) + Vector2.y (ball_vel s) * dt),
                 Vector2.mk (Vector2.x (ball_vel s) * BALL_FRICTION)
                            (Vector2.y (ball_vel s) * BALL_FRICTION))).
  { unfold ball_physics, ball_walls. cbn [Vector2.x Vector2.y] in *.
    rewrite wall_left_miss by (cbn [Vector2.x]; lra).
    rewrite wall_right_miss by (cbn [Vector2.x]; lra).
    rewrite wall_top_miss by (cbn [Vector2.y]; lra).
    rewrite wall_bottom_miss by (cbn [Vector2.y]; lra).
    reflexivity. }
  rewrite W.
  rewrite (ball_vs_box_miss_eval _ _ _ _ _ H1).
  rewrite (ball_vs_box_miss_eval _ _ _ _ _ H2).
  cbn [fst snd]. split; [reflexivity|]. split; [reflexivity|].
  unfold Vector2.length. cbn [Vector2.x Vector2.y].
  apply hypot_scale. unfold BALL_FRICTION. lra.
Qed.

Lemma tick_free_flight_witness :
  ball_pos (tick squeeze_keys squeeze_dt
              (mkState 98 100 194 100 (box1 squeeze_state) (box2 squeeze_state)
                       (Vector2.mk 500 500) (Vector2.mk 125 0)))
  = Vector2.mk (500 + 125 * squeeze_dt) (500 + 0 * squeeze_dt).
Proof.
  set (s := mkState 98 100 194 100 (box1 squeeze_state) (box2 squeeze_state)
                    (Vector2.mk 500 500) (Vector2.mk 125 0)).
  assert (M : move_boxes squeeze_keys squeeze_dt s
              = (mkState 98 100 186 100
                   (Rect.mk 98 100 BOX_SIZE BOX_SIZE) (Rect.mk 186 100 BOX_SIZE BOX_SIZE)
                   (Vector2.mk 500 500) (Vector2.mk 125 0), (0, 0), (-1, 0))).
  { unfold move_boxes, squeeze_keys, s, squeeze_state, squeeze_dt.
    cbn [K_RIGHT K_LEFT K_DOWN K_UP K_d K_a K_s K_w x1 y1 x2 y2 box1 box2
         ball_pos ball_vel].
    change (direction (key_axis false false) (key_axis false false)) with (0, 0).
    change (direction (key_axis false true) (key_axis false false)) with (-1, 0).
    cbv iota beta.
    rewrite (move_clamp_eval 98 0 _ _ 98) by (Rnum; lra).
    rewrite !(move_clamp_eval 100 0 _ _ 100) by (Rnum; lra).
    rewrite (move_clamp_eval 194 (-1) _ _ 186) by (Rnum; lra).
    rewrite (py_int_floor 98 98), (py_int_floor 100 100), (py_int_floor 186 186) by lra.
    reflexivity. }
  refine (proj1 (tick_free_flight squeeze_keys squeeze_dt s _ _ _)).
  - unfold ball_in_arena, s, squeeze_dt. cbn [ball_pos ball_vel Vector2.x Vector2.y].
    Rnum. lra.
  - rewrite tick_ball, M. cbn [fst box1]. unfold s, ball_push, squeeze_dt.
    cbn [ball_pos ball_vel Vector2.x Vector2.y].
    apply (circle_rect_overlap_far _ _ ball_r _ 354 350); Rnum; closest_eval.
  - rewrite tick_ball, M. cbn [fst box2]. unfold s, ball_push, squeeze_dt.
    cbn [ball_pos ball_vel Vector2.x Vector2.y].
    apply (circle_rect_overlap_far _ _ ball_r _ 266 350); Rnum; closest_eval.
Defined.

(** ** Invariants of the boxes *)

Lemma py_int_IZR (z : Z) : py_int (IZR z) = z.
Proof.
  unfold py_int. destruct (Rle_dec 0 (IZR z)) as [H|H].
  - symmetry. apply Int_part_spec. lra.
  - rewrite <- opp_IZR.
    rewrite <- (Int_part_spec (IZR (- z)) (- z)) by lra. lia.
Qed.

Lemma py_int_bounds (f : R) (n : Z) :
  0 <= f <= IZR n -> (0 <= py_int f <= n)%Z.
Proof.
  intros [H0 Hn]. unfold py_int. destruct (Rle_dec 0 f) as [_|N]; [|contradiction].
  destruct (base_Int_part f) as [B1 B2]. split.
  - assert (H : IZR (-1) < IZR (Int_part f)) by lra. apply lt_IZR in H. lia.
  - apply le_IZR. lra.
Qed.

Lemma move_clamp_bounds (p d dt : R) (limit : Z) :
  (0 <= limit)%Z -> 0 <= move_clamp p d dt limit <= IZR limit.
Proof.
  intros H. apply IZR_le in H. unfold move_clamp. split.
  - apply Rmax_l.
  - apply Rmax_lub; [exact H | apply Rmin_r].
Qed.

Lemma move_boxes_size (keys : Keys) (dt : R) (s : State) :
  let s1 := fst (fst (move_boxes keys dt s)) in
  (Rect.w (box1 s1) = Rect.w (box1 s) /\ Rect.h (box1 s1) = Rect.h (box1 s)) /\
  (Rect.w (box2 s1) = Rect.w (box2 s) /\ Rect.h (box2 s1) = Rect.h (box2 s)).
Proof.
  cbv zeta. unfold move_boxes.
  destruct (direction _ _) as [dx1 dy1]. destruct (direction _ _) as [dx2 dy2].
  destruct (Rect.colliderect _ _).
  - match goal with |- context [resolve_boxes ?a ?b ?c ?d ?e ?f] =>
      pose proof (resolve_boxes_size a b c d e f) as Hs;
      destruct (resolve_boxes a b c d e f) as [b1' b2'] end.
    cbv zeta in Hs. unfold Rect.set_topleft in Hs.
    cbn [fst snd Rect.w Rect.h] in Hs. cbn [fst snd box1 box2]. exact Hs.
  - cbn [fst box1 box2 Rect.set_topleft Rect.w Rect.h]. repeat split; reflexivity.
Qed.

Lemma move_boxes_synced (keys : Keys) (dt : R) (s : State) :
  boxes_synced (fst (fst (move_boxes keys dt s))).
Proof.
  unfold move_boxes, boxes_synced.
  destruct (direction _ _) as [dx1 dy1]. destruct (direction _ _) as [dx2 dy2].
  destruct (Rect.colliderect _ _).
  - destruct (resolve_boxes _ _ _ _ _ _) as [b1' b2'].
    cbn [fst x1 y1 x2 y2 box1 box2]. rewrite !py_int_IZR. repeat split; reflexivity.
  - cbn [fst x1 y1 x2 y2 box1 box2 Rect.set_topleft Rect.x Rect.y].
    repeat split; reflexivity.
Qed.

Lemma tick_boxes (keys : Keys) (dt : R) (s : State) :
  let s1 := fst (fst (move_boxes keys dt s)) in
  let s' := tick keys dt s in
  x1 s' = x1 s1 /\ y1 s' = y1 s1 /\ x2 s' = x2 s1 /\ y2 s' = y2 s1 /\
  box1 s' = box1 s1 /\ box2 s' = box2 s1.
Proof.
  cbv zeta. rewrite tick_ball. cbn [x1 y1 x2 y2 box1 box2].
  repeat split; reflexivity.
Qed.

Lemma tick_keeps_invariant (keys : Keys) (dt : R) (s : State) :
  boxes_sized s -> boxes_sized (tick keys dt s) /\ boxes_synced (tick keys dt s).
Proof.
  intros [[W1 H1] [W2 H2]].
  destruct (tick_boxes keys dt s) as (Ex1 & Ey1 & Ex2 & Ey2 & Eb1 & Eb2).
  cbv zeta in *. split.
  - destruct (move_boxes_size keys dt s) as [[A1 A2] [A3 A4]]. cbv zeta in *.
    unfold boxes_sized, box_sized. rewrite Eb1, Eb2, A1, A2, A3, A4.
    repeat split; assumption.
  - pose proof (move_boxes_synced keys dt s) as Hs. unfold boxes_synced in *.
    rewrite Ex1, Ey1, Ex2, Ey2, Eb1, Eb2. exact Hs.
Qed.

(** X17.  In every state the program reaches, after any sequence of frames,
    both boxes are still [BOX_SIZE] squares and each rectangle sits at the
    truncation of its float position. *)
Theorem main_loop_invariant (frames : list Frame) :
  boxes_sized (main_loop frames initial_state) /\
  boxes_synced (main_loop frames initial_state).
Proof.
  assert (I0 : boxes_sized initial_state /\ boxes_synced initial_state).
  { split; repeat split; reflexivity. }
  revert I0. generalize initial_state.
  induction frames as [|f fs IH]; intros s [Hz Hs]; cbn [main_loop].
  - split; assumption.
  - pose proof (tick_keeps_invariant (frame_keys f) (frame_dt f) s Hz) as Ht.
    destruct (quit f); [exact Ht | apply IH; exact Ht].
Qed.

Lemma input_boxes_spec (keys : Keys) (dt : R) (s : State) :
  Rect.colliderect (fst (input_boxes keys dt s)) (snd (input_boxes keys dt s)) = false ->
  box1 (fst (fst (move_boxes keys dt s))) = fst (input_boxes keys dt s) /\
  box2 (fst (fst (move_boxes keys dt s))) = snd (input_boxes keys dt s).
Proof.
  unfold move_boxes, input_boxes.
  destruct (direction _ _) as [dx1 dy1]. destruct (direction _ _) as [dx2 dy2].
  cbn [fst snd]. intros ->. cbn [fst box1 box2]. split; reflexivity.
Qed.

Lemma input_boxes_in_arena (keys : Keys) (dt : R) (s : State) :
  box_in_arena (fst (input_boxes keys dt s)) /\
  box_in_arena (snd (input_boxes keys dt s)).
Proof.
  unfold input_boxes.
  destruct (direction _ _) as [dx1 dy1]. destruct (direction _ _) as [dx2 dy2].
  cbn [fst snd]. unfold box_in_arena, Rect.set_topleft. cbn [Rect.x Rect.y].
  split; (split; apply py_int_bounds; apply move_clamp_bounds; vm_compute; discriminate).
Qed.

(** X18.  After input, clamp and sync the top-left corner of each box lies in
    [0, WIDTH - BOX_SIZE] x [0, HEIGHT - BOX_SIZE], whatever the state, the
    keys and [dt]; when the two boxes do not collide there, these are the
    boxes at the end of the iteration. *)
Theorem boxes_in_arena_without_contact (keys : Keys) (dt : R) (s : State) :
  let ib := input_boxes keys dt s in
  let s' := tick keys dt s in
  box_in_arena (fst ib) /\ box_in_arena (snd ib) /\
  (Rect.colliderect (fst ib) (snd ib) = false ->
   box1 s' = fst ib /\ box2 s' = snd ib /\
   box_in_arena (box1 s') /\ box_in_arena (box2 s')).
Proof.
  cbv zeta. destruct (input_boxes_in_arena keys dt s) as [A1 A2].
  split; [exact A1|]. split; [exact A2|]. intros E.
  destruct (tick_boxes keys dt s) as (_ & _ & _ & _ & Eb1 & Eb2). cbv zeta in *.
  destruct (input_boxes_spec keys dt s E) as [I1 I2].
  rewrite Eb1, Eb2, I1, I2.
  split; [reflexivity|]. split; [reflexivity|]. split; assumption.
Qed.

Lemma boxes_in_arena_without_contact_witness :
  box_in_arena (box1 (tick no_keys (16 / 1000) clamp_state)) /\
  box_in_arena (box2 (tick no_keys (16 / 1000) clamp_state)).
Proof.
  destruct (boxes_in_arena_without_contact no_keys (16 / 1000) clamp_state)
    as (_ & _ & H).
  cbv zeta in H.
  assert (E : Rect.colliderect (fst (input_boxes no_keys (16 / 1000) clamp_state))
                               (snd (input_boxes no_keys (16 / 1000) clamp_state))
              = false).
  { unfold input_boxes, no_keys, clamp_state, initial_state.
    cbn [K_RIGHT K_LEFT K_DOWN K_UP K_d K_a K_s K_w x1 y1 x2 y2 box1 box2].
    change (direction (key_axis false false) (key_axis false false)) with (0, 0).
    cbv iota beta.
    rewrite (move_clamp_eval (IZR (WIDTH - BOX_SIZE) / (12 / 10)) 0 _ _
               (IZR (WIDTH - BOX_SIZE) / (12 / 10))) by (Rnum; lra).
    rewrite !(move_clamp_eval (IZR (HEIGHT - BOX_SIZE) / 2) 0 _ _
               (IZR (HEIGHT - BOX_SIZE) / 2)) by (Rnum; lra).
    rewrite (move_clamp_eval (IZR (WIDTH - BOX_SIZE) / 4) 0 _ _
               (IZR (WIDTH - BOX_SIZE) / 4)) by (Rnum; lra).
    rewrite (py_int_floor (IZR (WIDTH - BOX_SIZE) / (12 / 10)) 758) by (Rnum; lra).
    rewrite (py_int_floor (IZR (HEIGHT - BOX_SIZE) / 2) 335) by (Rnum; lra).
    rewrite (py_int_floor (IZR (WIDTH - BOX_SIZE) / 4) 227) by (Rnum; lra).
    reflexivity. }
  destruct (H E) as (_ & _ & B1 & B2). split; [exact B1 | exact B2].
Defined.

(** ** The ball-box response along the contact normal *)

(** X19.  When the ball-box response runs, the component along the contact
    normal of the ball's velocity relative to the box changes sign and is
    scaled by [BALL_BOUNCE_DAMP], whether the ball was approaching the box or
    already leaving it; the component across the normal keeps its sign and is
    scaled by the same factor. *)
Theorem ball_vs_box_reverses_normal (pos vel : Vector2.t) (rect : Rect.t)
        (mvx mvy : R) :
  truthy (fst (ball_push pos rect)) || truthy (snd (ball_push pos rect)) = true ->
  let n := contact_normal (fst (ball_push pos rect)) (snd (ball_push pos rect)) in
  let v' := snd (ball_vs_box (pos, vel) (rect, mvx, mvy)) in
  let rel := (Vector2.x vel - mvx, Vector2.y vel - mvy) in
  let rel' := (Vector2.x v' - mvx, Vector2.y v' - mvy) in
  vdot rel' n = - BALL_BOUNCE_DAMP * vdot rel n /\
  vdot rel' (- snd n, fst n) = BALL_BOUNCE_DAMP * vdot rel (- snd n, fst n).
Proof.
  intros G. cbv zeta.
  destruct (ball_vs_box_hit pos vel rect mvx mvy G) as (Hp & -> & ->).
  set (px := fst (ball_push pos rect)) in *.
  set (py := snd (ball_push pos rect)) in *.
  assert (Hnz : px <> 0 \/ py <> 0).
  { apply orb_true_iff in G.
    destruct G as [G|G]; apply truthy_true in G; [left|right]; exact G. }
  pose proof (normalised_unit px py Hnz) as Hn.
  set (nx := px / hypot px py) in *. set (ny := py / hypot px py) in *.
  unfold reflect_velocity_over_normal, vdot.
  cbn [fst snd Vector2.x Vector2.y].
  set (a := Vector2.x vel - mvx). set (b := Vector2.y vel - mvy).
  split.
  - replace (((a - 2 * (a * nx + b * ny) * nx) * BALL_BOUNCE_DAMP + mvx - mvx) * nx
             + ((b - 2 * (a * nx + b * ny) * ny) * BALL_BOUNCE_DAMP + mvy - mvy) * ny)
      with (BALL_BOUNCE_DAMP * (a * nx + b * ny) * (1 - 2 * (nx * nx + ny * ny)))
      by ring.
    rewrite Hn. ring.
  - ring.
Qed.

Lemma ball_vs_box_reverses_normal_witness :
  let b := (Rect.mk 186 100 BOX_SIZE BOX_SIZE, -1 * SPEED, 0 * SPEED) in
  let n := contact_normal (-8) 0 in
  let v' := snd (ball_vs_box squeeze_ball b) in
  vdot (Vector2.x v' - -1 * SPEED, Vector2.y v' - 0 * SPEED) n
  = - BALL_BOUNCE_DAMP
    * vdot (Vector2.x (snd squeeze_ball) - -1 * SPEED,
            Vector2.y (snd squeeze_ball) - 0 * SPEED) n.
Proof.
  cbv zeta.
  assert (G : truthy (fst (ball_push (fst squeeze_ball)
                                     (Rect.mk 186 100 BOX_SIZE BOX_SIZE)))
              || truthy (snd (ball_push (fst squeeze_ball)
                                        (Rect.mk 186 100 BOX_SIZE BOX_SIZE)))
              = true).
  { unfold squeeze_ball. cbn [fst]. rewrite squeeze_push_box2. cbn [fst snd].
    apply orb_true_iff. left. apply truthy_true. lra. }
  pose proof (proj1 (ball_vs_box_reverses_normal (fst squeeze_ball) (snd squeeze_ball)
                       (Rect.mk 186 100 BOX_SIZE BOX_SIZE) (-1 * SPEED) (0 * SPEED) G))
    as H.
  unfold squeeze_ball in *. cbn [fst snd] in *.
  rewrite squeeze_push_box2 in H. cbn [fst snd] in H. exact H.
Defined.

(** ** Directions from the keys *)

(** X20.  For every combination of the four keys of a box, the direction has
    components of equal magnitude or one component zero, and its squared
    length is 0 (no net key), 1 (one axis) or, for a diagonal, between 1 and
    1 + 10^-11: diagonal input is scaled back to unit speed. *)
Theorem direction_unit (kr kl kd ku : bool) :
  let d := direction (key_axis kr kl) (key_axis kd ku) in
  let q := fst d * fst d + snd d * snd d in
  (Rabs (fst d) = Rabs (snd d) \/ fst d = 0 \/ snd d = 0) /\
  (q = 0 \/ q = 1 \/ 1 <= q <= 1 + 1 / 100000000000).
Proof.
  cbv zeta.
  destruct kr, kl, kd, ku; unfold key_axis, direction, inv;
    cbn [Z.b2z Z.sub Z.add Z.opp Z.pos_sub Z.eqb Pos.eqb negb andb fst snd Z.succ_double
         Z.pred_double Z.double Pos.pred_double];
    (split;
     [ first [ right; left; lra | right; right; lra
             | left; unfold Rabs;
               repeat match goal with
                 | |- context [Rcase_abs ?a] => destruct (Rcase_abs a)
                 end; lra ]
     | first [ left; lra | right; left; lra | right; right; lra ] ]).
Qed.

(** ** The boxes at the end of an iteration *)

Lemma resolve_boxes_squares_separate (b1 b2 : Rect.t) (dx1 dy1 dx2 dy2 : R) :
  box_sized b1 -> box_sized b2 ->
  Rect.colliderect b1 b2 = true ->
  Rect.x b1 <> Rect.x b2 \/ Rect.y b1 <> Rect.y b2 ->
  Rect.colliderect (fst (resolve_boxes b1 b2 dx1 dy1 dx2 dy2))
                   (snd (resolve_boxes b1 b2 dx1 dy1 dx2 dy2)) = false.
Proof.
  intros [W1 H1] [W2 H2] E Hne.
  assert (P1 : Rect.proper b1) by (unfold Rect.proper; rewrite W1, H1; split; reflexivity).
  assert (P2 : Rect.proper b2) by (unfold Rect.proper; rewrite W2, H2; split; reflexivity).
  pose proof (colliderect_sym _ _ P1 P2 E) as E'.
  pose proof (depths_positive b1 b2 P1 P2 E) as (D1 & D2 & D3 & D4).
  rewrite (resolve_boxes_copies b1 b2 dx1 dy1 dx2 dy2 P1 P2 E). cbn [fst snd].
  destruct (Rect.colliderect (fst (resolve_aabb_overlap b1 b2 dx1 dy1))
                             (fst (resolve_aabb_overlap b2 b1 dx2 dy2))) eqn:F;
    [exfalso|reflexivity].
  revert F.
  destruct (resolve_cases b1 b2 dx1 dy1 E) as [[-> A1]|[-> A1]];
    destruct (resolve_cases b2 b1 dx2 dy2 E') as [[-> A2]|[-> A2]];
    cbn [fst]; intros F;
    apply colliderect_proper in F; try (destruct P1, P2; split; assumption);
    unfold min_x_overlap, min_y_overlap, min_overlap in *;
    repeat match goal with
      | H : context [(?a <? ?b)%Z] |- _ => destruct (Z.ltb_spec a b)
      end;
    unfold Rect.move, Rect.left, Rect.right, Rect.top, Rect.bottom, BOX_SIZE in *;
    cbn [Rect.x Rect.y Rect.w Rect.h] in *; lia.
Qed.

Lemma input_boxes_size (keys : Keys) (dt : R) (s : State) :
  boxes_sized s ->
  box_sized (fst (input_boxes keys dt s)) /\ box_sized (snd (input_boxes keys dt s)).
Proof.
  unfold boxes_sized, box_sized, input_boxes.
  destruct (direction _ _) as [dx1 dy1]. destruct (direction _ _) as [dx2 dy2].
  cbn [fst snd Rect.set_topleft Rect.w Rect.h]. intros H. exact H.
Qed.

Lemma move_boxes_collide (keys : Keys) (dt : R) (s : State) :
  Rect.colliderect (fst (input_boxes keys dt s)) (snd (input_boxes keys dt s)) = true ->
  exists dx1 dy1 dx2 dy2,
    (box1 (fst (fst (move_boxes keys dt s))), box2 (fst (fst (move_boxes keys dt s))))
    = resolve_boxes (fst (input_boxes keys dt s)) (snd (input_boxes keys dt s))
                    dx1 dy1 dx2 dy2.
Proof.
  unfold move_boxes, input_boxes.
  destruct (direction _ _) as [dx1 dy1]. destruct (direction _ _) as [dx2 dy2].
  cbn [fst snd]. intros E. rewrite E. exists dx1, dy1, dx2, dy2.
  destruct (resolve_boxes _ _ _ _ _ _) as [b1' b2']. reflexivity.
Qed.

(** X21.  From a state whose boxes are [BOX_SIZE] squares, the two boxes do
    not overlap at the end of an iteration, provided that after input, clamp
    and sync they are not at the very same position. *)
Theorem tick_boxes_separate (keys : Keys) (dt : R) (s : State) :
  boxes_sized s ->
  let ib := input_boxes keys dt s in
  let s' := tick keys dt s in
  Rect.x (fst ib) <> Rect.x (snd ib) \/ Rect.y (fst ib) <> Rect.y (snd ib) ->
  Rect.colliderect (box1 s') (box2 s') = false.
Proof.
  intros Hz. cbv zeta. intros Hne.
  destruct (tick_boxes keys dt s) as (_ & _ & _ & _ & Eb1 & Eb2). cbv zeta in *.
  rewrite Eb1, Eb2.
  destruct (Rect.colliderect (fst (input_boxes keys dt s))
                             (snd (input_boxes keys dt s))) eqn:E.
  - destruct (move_boxes_collide keys dt s E) as (dx1 & dy1 & dx2 & dy2 & Hrb).
    destruct (input_boxes_size keys dt s Hz) as [Z1 Z2].
    pose proof (resolve_boxes_squares_separate _ _ dx1 dy1 dx2 dy2 Z1 Z2 E Hne)
      as Hsep.
    rewrite <- Hrb in Hsep. exact Hsep.
  - destruct (input_boxes_spec keys dt s E) as [-> ->]. exact E.
Qed.

Lemma overlap_input_boxes :
  input_boxes no_keys (16 / 1000) overlap_state = (overlap_b1, overlap_b2).
Proof.
  unfold input_boxes, no_keys, overlap_state, overlap_b1, overlap_b2.
  cbn [K_RIGHT K_LEFT K_DOWN K_UP K_d K_a K_s K_w x1 y1 x2 y2 box1 box2].
  change (direction (key_axis false false) (key_axis false false)) with (0, 0).
  cbv iota beta.
  rewrite (move_clamp_eval 100 0 _ _ 100) by (Rnum; lra).
  rewrite !(move_clamp_eval 335 0 _ _ 335) by (Rnum; lra).
  rewrite (move_clamp_eval 142 0 _ _ 142) by (Rnum; lra).
  rewrite (py_int_floor 100 100), (py_int_floor 335 335), (py_int_floor 142 142) by lra.
  reflexivity.
Qed.

Lemma tick_boxes_separate_witness :
  Rect.colliderect (box1 (tick no_keys (16 / 1000) overlap_state))
                   (box2 (tick no_keys (16 / 1000) overlap_state)) = false.
Proof.
  apply (tick_boxes_separate no_keys (16 / 1000) overlap_state).
  - split; split; reflexivity.
  - rewrite overlap_input_boxes. left. cbn. discriminate.
Defined.

(** ** Top speed of the boxes *)

Lemma direction_bound (a b c d : bool) :
  let v := direction (key_axis a b) (key_axis c d) in
  -1 <= fst v <= 1 /\ -1 <= snd v <= 1.
Proof.
  cbv zeta. destruct a, b, c, d; unfold key_axis, direction, inv;
    cbn [Z.b2z Z.sub Z.add Z.opp Z.pos_sub Z.eqb Pos.eqb negb andb fst snd Z.succ_double
         Z.pred_double Z.double Pos.pred_double]; lra.
Qed.

Lemma move_clamp_step (p d dt : R) (limit : Z) :
  0 <= p <= IZR limit -> -1 <= d <= 1 -> 0 <= dt ->
  Rabs (move_clamp p d dt limit - p) <= SPEED * dt.
Proof.
  intros Hp Hd Hdt. unfold move_clamp, SPEED.
  assert (Hs : - (500 * dt) <= d * 500 * dt <= 500 * dt) by nra.
  set (e := d * 500 * dt) in *.
  assert (H0 : 0 <= IZR limit) by lra.
  destruct (clamp_cases (p + e) 0 (IZR limit) H0) as [[Hc ->]|[[Hc ->]|[Hc ->]]];
    apply Rabs_le; lra.
Qed.

Lemma move_boxes_floats (keys : Keys) (dt : R) (s : State) :
  Rect.colliderect (fst (input_boxes keys dt s)) (snd (input_boxes keys dt s)) = false ->
  let d1 := direction (key_axis (K_RIGHT keys) (K_LEFT keys))
                      (key_axis (K_DOWN keys) (K_UP keys)) in
  let d2 := direction (key_axis (K_d keys) (K_a keys))
                      (key_axis (K_s keys) (K_w keys)) in
  let s1 := fst (fst (move_boxes keys dt s)) in
  x1 s1 = move_clamp (x1 s) (fst d1) dt (WIDTH - BOX_SIZE) /\
  y1 s1 = move_clamp (y1 s) (snd d1) dt (HEIGHT - BOX_SIZE) /\
  x2 s1 = move_clamp (x2 s) (fst d2) dt (WIDTH - BOX_SIZE) /\
  y2 s1 = move_clamp (y2 s) (snd d2) dt (HEIGHT - BOX_SIZE).
Proof.
  unfold move_boxes, input_boxes. cbv zeta.
  destruct (direction _ _) as [dx1 dy1]. destruct (direction _ _) as [dx2 dy2].
  cbn [fst snd]. intros ->. cbn [fst x1 y1 x2 y2]. repeat split; reflexivity.
Qed.

(** X22.  In an iteration with [dt >= 0] in which the boxes do not collide,
    a box whose float position is inside the clamp range moves by at most
    [SPEED * dt] along each axis, whatever keys are pressed. *)
Theorem box_speed_limit (keys : Keys) (dt : R) (s : State) :
  0 <= dt -> floats_in_arena s ->
  Rect.colliderect (fst (input_boxes keys dt s)) (snd (input_boxes keys dt s)) = false ->
  let s' := tick keys dt s in
  Rabs (x1 s' - x1 s) <= SPEED * dt /\ Rabs (y1 s' - y1 s) <= SPEED * dt /\
  Rabs (x2 s' - x2 s) <= SPEED * dt /\ Rabs (y2 s' - y2 s) <= SPEED * dt.
Proof.
  intros Hdt [[Hx1 Hy1] [Hx2 Hy2]] E. cbv zeta.
  destruct (tick_boxes keys dt s) as (-> & -> & -> & -> & _). 
  destruct (move_boxes_floats keys dt s E) as (-> & -> & -> & ->).
  destruct (direction_bound (K_RIGHT keys) (K_LEFT keys) (K_DOWN keys) (K_UP keys))
    as [B1 B2].
  destruct (direction_bound (K_d keys) (K_a keys) (K_s keys) (K_w keys)) as [B3 B4].
  cbv zeta in *.
  repeat split; apply move_clamp_step; assumption.
Qed.

Lemma box_speed_limit_witness :
  Rabs (x2 (tick squeeze_keys squeeze_dt squeeze_state) - x2 squeeze_state)
  <= SPEED * squeeze_dt.
Proof.
  assert (E : Rect.colliderect
                (fst (input_boxes squeeze_keys squeeze_dt squeeze_state))
                (snd (input_boxes squeeze_keys squeeze_dt squeeze_state)) = false).
  { unfold input_boxes, squeeze_keys, squeeze_state, squeeze_dt.
    cbn [K_RIGHT K_LEFT K_DOWN K_UP K_d K_a K_s K_w x1 y1 x2 y2 box1 box2].
    change (direction (key_axis false false) (key_axis false false)) with (0, 0).
    change (direction (key_axis false true) (key_axis false false)) with (-1, 0).
    cbv iota beta.
    rewrite (move_clamp_eval 98 0 _ _ 98) by (Rnum; lra).
    rewrite !(move_clamp_eval 100 0 _ _ 100) by (Rnum; lra).
    rewrite (move_clamp_eval 194 (-1) _ _ 186) by (Rnum; lra).
    rewrite (py_int_floor 98 98), (py_int_floor 100 100), (py_int_floor 186 186) by lra.
    reflexivity. }
  refine (proj1 (proj2 (proj2 (box_speed_limit squeeze_keys squeeze_dt squeeze_state
                                 _ _ E)))).
  - unfold squeeze_dt. lra.
  - unfold floats_in_arena, squeeze_state. cbn [x1 y1 x2 y2]. Rnum. lra.
Defined.

(** * The zero-distance branch with the centre inside the rectangle *)

Lemma push_options_inside (cx cy r : R) (rect : Rect.t) :
  center_in_rect cx cy rect ->
  push_options cx cy r rect
  = [ (- (r - (cx - IZR (Rect.left rect))), 0);
      (r - (IZR (Rect.right rect) - cx), 0);
      (0, - (r - (cy - IZR (Rect.top rect))));
      (0, r - (IZR (Rect.bottom rect) - cy)) ].
Proof.
  intros [Hx Hy]. unfold push_options.
  rewrite (Rabs_pos_eq (cx - IZR (Rect.left rect))) by lra.
  rewrite (Rabs_pos_eq (IZR (Rect.right rect) - cx)) by lra.
  rewrite (Rabs_pos_eq (cy - IZR (Rect.top rect))) by lra.
  rewrite (Rabs_pos_eq (IZR (Rect.bottom rect) - cy)) by lra.
  reflexivity.
Qed.

Lemma abs_diff_lt_sum (r d : R) : 0 < r -> 0 < d -> Rabs (r - d) < r + d.
Proof. intros Hr Hd. unfold Rabs. destruct (Rcase_abs (r - d)); lra. Qed.

Lemma hypot_x (a : R) : hypot a 0 = Rabs a.
Proof.
  unfold hypot. replace (a * a + 0 * 0) with (Rsqr a) by (unfold Rsqr; ring).
  apply sqrt_Rsqr_abs.
Qed.

Lemma hypot_y (a : R) : hypot 0 a = Rabs a.
Proof. rewrite hypot_swap. apply hypot_x. Qed.

(** A push along one axis that is shorter than the way out on both sides
    leaves the centre less than [r] off the interval. *)
Lemma clamp_offset_small (c lo hi p r : R) :
  0 < r -> lo <= c <= hi ->
  Rabs p < r + (c - lo) -> Rabs p < r + (hi - c) ->
  Rabs (c + p - Rmax lo (Rmin (c + p) hi)) < r.
Proof.
  intros Hr Hc H1 H2.
  assert (Hp : - Rabs p <= p <= Rabs p).
  { unfold Rabs. destruct (Rcase_abs p); lra. }
  assert (Hlh : lo <= hi) by lra.
  destruct (clamp_cases (c + p) lo hi Hlh) as [[Hk ->]|[[Hk ->]|[Hk ->]]];
    unfold Rabs; destruct (Rcase_abs _); lra.
Qed.

Lemma center_distance_x (cx cy px : R) (rect : Rect.t) :
  IZR (Rect.top rect) <= cy <= IZR (Rect.bottom rect) ->
  center_distance (cx + px) (cy + 0) rect
  = Rabs (cx + px - closest_x (cx + px) rect).
Proof.
  intros Hy. unfold center_distance, center_offset. cbn [fst snd].
  rewrite Rplus_0_r. unfold closest_y. rewrite closest_inside by exact Hy.
  replace (cy - cy) with 0 by ring. apply hypot_x.
Qed.

Lemma center_distance_y (cx cy py : R) (rect : Rect.t) :
  IZR (Rect.left rect) <= cx <= IZR (Rect.right rect) ->
  center_distance (cx + 0) (cy + py) rect
  = Rabs (cy + py - closest_y (cy + py) rect).
Proof.
  intros Hx. unfold center_distance, center_offset. cbn [fst snd].
  rewrite Rplus_0_r. unfold closest_x. rewrite closest_inside by exact Hx.
  replace (cx - cx) with 0 by ring. apply hypot_y.
Qed.

(** C5 (the code departs from it).  With the centre strictly inside the
    rectangle and [r > 0], the push the resolver returns is strictly shorter
    than each of the four axis-aligned pushes that would take the circle out
    of the rectangle, so it is not the shortest of them; after it the centre
    is still less than [r] away from the rectangle: the circle still
    overlaps it. *)
Theorem zero_distance_push_too_short (cx cy r : R) (rect : Rect.t) :
  0 < r -> center_strictly_inside cx cy rect ->
  let p := circle_rect_overlap cx cy r rect in
  (forall o, In o (separating_pushes cx cy r rect) -> push_key p < push_key o) /\
  center_distance (cx + fst p) (cy + snd p) rect < r.
Proof.
  intros Hr [Hx Hy]. cbv zeta.
  assert (Hin : center_in_rect cx cy rect) by (split; lra).
  destruct (zero_distance_push_in_options cx cy r rect Hin) as [Hp Hmin].
  cbv zeta in Hp, Hmin. rewrite (push_options_inside cx cy r rect Hin) in Hp, Hmin.
  set (p := circle_rect_overlap cx cy r rect) in *.
  set (L := IZR (Rect.left rect)) in *. set (Rt := IZR (Rect.right rect)) in *.
  set (T := IZR (Rect.top rect)) in *. set (B := IZR (Rect.bottom rect)) in *.
  assert (K1 : push_key p < r + (cx - L)).
  { eapply Rle_lt_trans; [apply Hmin; left; reflexivity|].
    rewrite push_key_x, Rabs_Ropp. apply abs_diff_lt_sum; lra. }
  assert (K2 : push_key p < r + (Rt - cx)).
  { eapply Rle_lt_trans; [apply Hmin; right; left; reflexivity|].
    rewrite push_key_x. apply abs_diff_lt_sum; lra. }
  assert (K3 : push_key p < r + (cy - T)).
  { eapply Rle_lt_trans; [apply Hmin; right; right; left; reflexivity|].
    rewrite push_key_y, Rabs_Ropp. apply abs_diff_lt_sum; lra. }
  assert (K4 : push_key p < r + (B - cy)).
  { eapply Rle_lt_trans; [apply Hmin; right; right; right; left; reflexivity|].
    rewrite push_key_y. apply abs_diff_lt_sum; lra. }
  split.
  - unfold separating_pushes. fold L Rt T B.
    intros o [<-|[<-|[<-|[<-|[]]]]].
    + rewrite push_key_x, Rabs_left by lra. lra.
    + rewrite push_key_x, Rabs_pos_eq by lra. lra.
    + rewrite push_key_y, Rabs_left by lra. lra.
    + rewrite push_key_y, Rabs_pos_eq by lra. lra.
  - destruct Hp as [E|[E|[E|[E|[]]]]]; rewrite <- E in *; cbn [fst snd];
      rewrite ?push_key_x, ?push_key_y in K1, K2, K3, K4.
    + rewrite center_distance_x by (fold T B; lra).
      unfold closest_x. fold L Rt. apply clamp_offset_small; lra.
    + rewrite center_distance_x by (fold T B; lra).
      unfold closest_x. fold L Rt. apply clamp_offset_small; lra.
    + rewrite center_distance_y by (fold L Rt; lra).
      unfold closest_y. fold T B. apply clamp_offset_small; lra.
    + rewrite center_distance_y by (fold L Rt; lra).
      unfold closest_y. fold T B. apply clamp_offset_small; lra.
Qed.

Lemma zero_distance_push_too_short_witness :
  let rect := Rect.mk 100 100 50 50 in
  circle_rect_overlap 120 103 22 rect = (-2, 0) /\
  center_in_rect (120 + -2) (103 + 0) rect /\
  (forall o, In o (separating_pushes 120 103 22 rect) ->
             push_key (circle_rect_overlap 120 103 22 rect) < push_key o) /\
  center_distance (120 + fst (circle_rect_overlap 120 103 22 rect))
                  (103 + snd (circle_rect_overlap 120 103 22 rect)) rect < 22.
Proof.
  cbv zeta.
  assert (Hin : center_in_rect 120 103 (Rect.mk 100 100 50 50)).
  { unfold center_in_rect. IZR_eval. lra. }
  assert (Hs : center_strictly_inside 120 103 (Rect.mk 100 100 50 50)).
  { unfold center_strictly_inside. IZR_eval. lra. }
  assert (Hr : 0 < 22) by lra.
  split; [|split].
  - rewrite (circle_rect_overlap_inside 120 103 22 _ Hin).
    rewrite (push_options_inside 120 103 22 _ Hin). IZR_eval.
    assert (K0 : push_key (- (22 - (120 - 100)), 0) = 2).
    { rewrite push_key_x, Rabs_left by lra. lra. }
    rewrite py_min_by_keep by (rewrite K0, push_key_x, Rabs_left by lra; lra).
    rewrite py_min_by_keep by (rewrite K0, push_key_y, Rabs_left by lra; lra).
    rewrite py_min_by_keep by (rewrite K0, push_key_y, Rabs_left by lra; lra).
    cbn [py_min_by]. f_equal. lra.
  - unfold center_in_rect. IZR_eval. lra.
  - exact (zero_distance_push_too_short 120 103 22 (Rect.mk 100 100 50 50) Hr Hs).
Defined.
